(** * The prior-predictive sampler compiler of mcx

    A shallow embedding of [mcmx/compiler/sample.py]: the [SamplerCompiler]
    node transformer ([visit_FunctionDef], [visit_Expr]), the dependency
    classifier [is_leaf_node], the statement synthesizer
    [new_sample_expression] and the rewriting half of the driver
    [compile_to_sampler].

    The transformer works on Python's [ast] trees.  The fragment of the
    tree grammar that the code inspects or rebuilds is embedded below with
    the field names of the Python 3.8 [ast] module.  Source locations
    ([lineno], [col_offset], ...) are left out: [ast.copy_location] and
    [ast.fix_missing_locations] only touch those. *)

From Stdlib Require Import List String ZArith Bool Arith Lia Permutation.
Import ListNotations.
Local Open Scope string_scope.
Local Open Scope list_scope.
Set Warnings "-register-all".

(** ** Python syntax trees *)

Inductive expr_context : Type := Load | Store | Del.

Inductive operator : Type :=
| Add | Sub | Mult | MatMult | Div | Mod | Pow
| LShift | RShift | BitOr | BitXor | BitAnd | FloorDiv.

Inductive unaryop : Type := Invert | Not | UAdd | USub.

(** The payload of an [ast.Constant]; a float literal is kept as its
    source text. *)
Inductive constant : Type :=
| CNone
| CBool (b : bool)
| CInt (n : Z)
| CFloat (repr : string)
| CStr (s : string)
| CEllipsis.

(** Expressions.  A keyword argument [k=v] of a call is the pair
    [(Some k, v)], and [**v] is [(None, v)].  A negative literal such as
    [-1] is parsed as [UnaryOp USub (Constant (CInt 1))]. *)
Inductive expr : Type :=
| Name (id : string) (ctx : expr_context)
| Constant (value : constant)
| Call (func : expr) (args : list expr) (keywords : list (option string * expr))
| Attribute (value : expr) (attr : string) (ctx : expr_context)
| BinOp (left : expr) (op : operator) (right : expr)
| Tuple (elts : list expr) (ctx : expr_context)
| Starred (value : expr) (ctx : expr_context)
| UnaryOp (uop : unaryop) (operand : expr)
| Subscript (value : expr) (slice : expr) (ctx : expr_context).

(** [ast.arg]: one formal parameter. *)
Record arg : Type := mk_arg {
  arg_name : string;
  annotation : option expr;
  arg_type_comment : option string
}.

(** [ast.arguments]: the formal parameters of a function.  [defaults]
    holds the default values of the last positional parameters, the
    positional parameters being [posonlyargs] followed by [args]. *)
Record arguments : Type := mk_arguments {
  posonlyargs : list arg;
  args : list arg;
  vararg : option arg;
  kwonlyargs : list arg;
  kw_defaults : list (option expr);
  kwarg : option arg;
  defaults : list expr
}.

(** Statements: the simple statements of a model body and the compound
    statements through which [NodeTransformer.generic_visit] recurses. *)
Inductive stmt : Type :=
| FunctionDef (name : string) (fargs : arguments) (body : list stmt)
              (decorator_list : list expr) (returns : option expr)
| Return (value : option expr)
| Assign (targets : list expr) (value : expr) (type_comment : option string)
| For (target iter : expr) (body orelse : list stmt)
| While (test : expr) (body orelse : list stmt)
| If (test : expr) (body orelse : list stmt)
| Expr (value : expr)
| Pass.

(** ** Errors and the compiler's state *)

(** The three [ValueError]s of [visit_Expr].  Each carries the syntax
    fragment whose source text the Python code puts in the exception; the
    third one also carries the variable name formatted into its message. *)
Inductive ValueError : Type :=
| ExpectedName (fragment : expr)
| ExpectedDistribution (fragment : expr)
| ExpectedNameOrConstant (var_name : string) (fragment : expr).

Definition fragment_of (e : ValueError) : expr :=
  match e with
  | ExpectedName f => f
  | ExpectedDistribution f => f
  | ExpectedNameOrConstant _ f => f
  end.

(** The attributes of a [SamplerCompiler] instance. *)
Record SamplerCompiler : Type := mk_compiler {
  model_vars : list string;
  fn_name : string
}.

(** [SamplerCompiler.__init__]. *)
Definition SamplerCompiler_init : SamplerCompiler :=
  {| model_vars := []; fn_name := "" |}.

(** A method of the transformer either raises or returns a value and the
    updated instance. *)
Definition M (A : Type) : Type := SamplerCompiler -> ValueError + (A * SamplerCompiler).

Definition ret {A} (a : A) : M A := fun self => inr (a, self).

Definition raise {A} (e : ValueError) : M A := fun _ => inl e.

Definition bind {A B} (m : M A) (k : A -> M B) : M B :=
  fun self =>
    match m self with
    | inl e => inl e
    | inr (a, self') => k a self'
    end.

Notation "x <- m ;; k" := (bind m (fun x => k))
  (at level 61, m at next level, right associativity).

(** [self.model_vars.append(var_name)]. *)
Definition append_model_var (var_name : string) : M unit :=
  fun self =>
    inr (tt, {| model_vars := model_vars self ++ [var_name];
                fn_name := fn_name self |}).

(** [self.fn_name = name]. *)
Definition set_fn_name (name : string) : M unit :=
  fun self => inr (tt, {| model_vars := model_vars self; fn_name := name |}).

(** The loop of [NodeTransformer.generic_visit] over a list field: every
    old node is visited in order and replaced by the node returned. *)
Definition visit_list {A B} (visit : A -> M B) : list A -> M (list B) :=
  fix go (l : list A) : M (list B) :=
    match l with
    | [] => ret []
    | x :: xs => y <- visit x ;; ys <- go xs ;; ret (y :: ys)
    end.

(** ** The functions of [sample.py] *)

(** [x in xs] on a list of strings. *)
Definition mem (x : string) (xs : list string) : bool :=
  existsb (String.eqb x) xs.

(** [is_leaf_node]: the loop returns [False] at the first argument that
    is an [ast.Name] whose [id] is in [model_vars]. *)
Fixpoint is_leaf_node (params : list expr) (model_vars : list string) : bool :=
  match params with
  | [] => true
  | p :: rest =>
      match p with
      | Name id _ =>
          if mem id model_vars then false else is_leaf_node rest model_vars
      | _ => is_leaf_node rest model_vars
      end
  end.

(** [new_sample_expression]. *)
Definition new_sample_expression (name distribution : string)
    (arguments : list expr) (do_add_sample_shape : bool) : stmt :=
  let args := [Name "rng_key" Load] in
  let args := if do_add_sample_shape
              then args ++ [Name "sample_shape" Load] else args in
  Assign [Name name Store]
         (Call (Attribute (Call (Name distribution Load) arguments [])
                          "sample" Load)
               args [])
         None.

Definition is_Name (e : expr) : bool :=
  match e with Name _ _ => true | _ => false end.

Definition is_Constant (e : expr) : bool :=
  match e with Constant _ => true | _ => false end.

(** The argument loop of [visit_Expr]: the first argument that is neither
    an [ast.Name] nor an [ast.Constant] raises. *)
Fixpoint check_arguments (var_name : string) (arguments : list expr) : M unit :=
  match arguments with
  | [] => ret tt
  | a :: rest =>
      if negb (is_Name a || is_Constant a)
      then raise (ExpectedNameOrConstant var_name a)
      else check_arguments var_name rest
  end.

(** The name resolver [read_object_name] of [compiler/utils.py] is
    imported by [sample.py] and is not part of the sources at hand.  It
    is taken as a parameter of the development: a pure function from the
    callee expression to its dotted name. *)
Class NameResolver : Type := read_object_name : expr -> string.

Section Compiler.
Context {resolver : NameResolver}.

(** [SamplerCompiler.visit_Expr], on the [value] of the [ast.Expr]. *)
Definition visit_Expr (value : expr) : M stmt :=
  match value with
  | BinOp lhs MatMult rhs =>
      match lhs with
      | Name var_name _ =>
          _ <- append_model_var var_name ;;
          match rhs with
          | Call func arguments _ =>
              let distribution := read_object_name func in
              _ <- check_arguments var_name arguments ;;
              fun self =>
                let do_add_sample_shape :=
                  is_leaf_node arguments (model_vars self) in
                ret (new_sample_expression var_name distribution arguments
                                           do_add_sample_shape) self
          | _ => raise (ExpectedDistribution rhs)
          end
      | _ => raise (ExpectedName lhs)
      end
  | _ => ret (Expr value)
  end.

(** The signature change of [visit_FunctionDef]. *)
Definition sampler_arguments (a : arguments) : arguments :=
  {| posonlyargs := posonlyargs a;
     args := mk_arg "rng_key" None None :: args a
             ++ [mk_arg "sample_shape" None None];
     vararg := vararg a;
     kwonlyargs := kwonlyargs a;
     kw_defaults := kw_defaults a;
     kwarg := kwarg a;
     defaults := defaults a ++ [Tuple [] Load] |}.

(** [SamplerCompiler.visit_FunctionDef]; [visit_body] is the recursive
    visit of the body by [generic_visit]. *)
Definition visit_FunctionDef (name : string) (fargs : arguments)
    (returns : option expr) (visit_body : M (list stmt)) : M stmt :=
  let new_args := sampler_arguments fargs in
  let new_name := (name ++ "_sampler")%string in
  _ <- set_fn_name new_name ;;
  body' <- visit_body ;;
  ret (FunctionDef new_name new_args body' [] returns).

(** [NodeTransformer.visit] on a statement: [visit_FunctionDef] and
    [visit_Expr] where the class defines them, [generic_visit]
    otherwise.  No expression contains a statement, so [generic_visit]
    leaves expression fields as they are. *)
Fixpoint visit (node : stmt) : M stmt :=
  match node with
  | FunctionDef name fargs body _ returns =>
      visit_FunctionDef name fargs returns (visit_list visit body)
  | Expr value => visit_Expr value
  | For target iter body orelse =>
      body' <- visit_list visit body ;;
      orelse' <- visit_list visit orelse ;;
      ret (For target iter body' orelse')
  | While test body orelse =>
      body' <- visit_list visit body ;;
      orelse' <- visit_list visit orelse ;;
      ret (While test body' orelse')
  | If test body orelse =>
      body' <- visit_list visit body ;;
      orelse' <- visit_list visit orelse ;;
      ret (If test body' orelse')
  | Return _ | Assign _ _ _ | Pass => ret node
  end.

(** The rewriting half of [compile_to_sampler]: the body of the parsed
    [ast.Module] is visited by a fresh [SamplerCompiler]; the result is
    the rewritten module and the name under which the driver looks the
    sampler up in the namespace.  Compiling and executing the rewritten
    tree and [jax.jit] belong to the host. *)
Definition compile_to_sampler (tree : list stmt) : ValueError + (list stmt * string) :=
  match visit_list visit tree SamplerCompiler_init with
  | inl e => inl e
  | inr (tree', compiler) => inr (tree', fn_name compiler)
  end.

End Compiler.

(** Modelled from the spec: the name resolver of section 4.1, on the
    callee shapes it is specified for (a bare name, or attribute accesses
    rooted at a name); other shapes are outside its contract and give the
    empty name here. *)
Fixpoint dotted_name (node : expr) : string :=
  match node with
  | Name id _ => id
  | Attribute value attr _ => (dotted_name value ++ "." ++ attr)%string
  | _ => ""
  end.

(** ** Running the compiler on small models *)

Definition normal (a b : expr) : expr := Call (Name "Normal" Load) [a; b] [].

Definition declare (x : string) (rhs : expr) : stmt :=
  Expr (BinOp (Name x Load) MatMult rhs).

Definition no_arguments : arguments := mk_arguments [] [] None [] [] None [].

(** [def m(): a @ Normal(0, 1); b @ Normal(a, 1)] *)
Definition two_normals : list stmt :=
  [FunctionDef "m" no_arguments
     [declare "a" (normal (Constant (CInt 0)) (Constant (CInt 1)));
      declare "b" (normal (Name "a" Load) (Constant (CInt 1)))]
     [Name "model" Load] None].


(** [x @ Normal(x, 1)] *)
Definition self_reference : expr :=
  BinOp (Name "x" Load) MatMult (normal (Name "x" Load) (Constant (CInt 1))).

(** The parameters of [def m(a=1, /, b=2)] and of [def m(mu=0)]. *)
Definition positional_only_arguments : arguments :=
  mk_arguments [mk_arg "a" None None] [mk_arg "b" None None] None [] [] None
               [Constant (CInt 1); Constant (CInt 2)].

Definition one_default_arguments : arguments :=
  mk_arguments [] [mk_arg "mu" None None] None [] [] None [Constant (CInt 0)].

(** [x @ Normal(0, 1); x = 5; y @ Normal(x, 1)] *)
Definition rebound_body : list stmt :=
  [declare "x" (normal (Constant (CInt 0)) (Constant (CInt 1)));
   Assign [Name "x" Store] (Constant (CInt 5)) None;
   declare "y" (normal (Name "x" Load) (Constant (CInt 1)))].

(** [k = 10; x @ Normal(k, 1); return x] *)
Definition plain_then_declared : list stmt :=
  [Assign [Name "k" Store] (Constant (CInt 10)) None;
   declare "x" (normal (Name "k" Load) (Constant (CInt 1)));
   Return (Some (Name "x" Load))].

(** [def m(): def helper(): pass; x @ Normal(0, 1)] *)
Definition nested_definition : list stmt :=
  [FunctionDef "m" no_arguments
     [FunctionDef "helper" no_arguments [Pass] [] None;
      declare "x" (normal (Constant (CInt 0)) (Constant (CInt 1)))]
     [] None].


(** ** Specification vocabulary *)

(** The trigger pattern of [visit_Expr]: a bare expression statement whose
    value is a binary operation with the matrix-multiplication operator. *)
Definition is_declaration (s : stmt) : bool :=
  match s with
  | Expr (BinOp _ MatMult _) => true
  | _ => false
  end.

(** Statements without nested statement lists. *)
Definition is_simple (s : stmt) : bool :=
  match s with
  | Return _ | Assign _ _ _ | Expr _ | Pass => true
  | _ => false
  end.

Definition is_Call (e : expr) : bool :=
  match e with Call _ _ _ => true | _ => false end.

(** What a distribution argument may be: a name or a literal constant. *)
Definition simple_argument (e : expr) : bool := is_Name e || is_Constant e.

(** The statements nested directly in a statement. *)
Definition children (s : stmt) : list stmt :=
  match s with
  | FunctionDef _ _ body _ _ => body
  | For _ _ body orelse | While _ body orelse | If _ body orelse =>
      body ++ orelse
  | _ => []
  end.

(** The compiler after [model_vars.append(x)]. *)
Definition appended (c : SamplerCompiler) (x : string) : SamplerCompiler :=
  {| model_vars := model_vars c ++ [x]; fn_name := fn_name c |}.

(** A statement followed by the statements nested in it, in the order in
    which [generic_visit] reaches them. *)
Fixpoint statements (s : stmt) : list stmt :=
  s :: match s with
       | FunctionDef _ _ body _ _ => flat_map statements body
       | For _ _ body orelse | While _ body orelse | If _ body orelse =>
           flat_map statements body ++ flat_map statements orelse
       | _ => []
       end.

(** The left-hand names of the declarations of a statement, in visiting
    order.  A declaration counts as soon as its left operand is a name. *)
Definition declared_name (s : stmt) : list string :=
  match s with
  | Expr (BinOp lhs MatMult _) =>
      match lhs with Name x _ => [x] | _ => [] end
  | _ => []
  end.

Definition declared_names (tree : list stmt) : list string :=
  flat_map declared_name (flat_map statements tree).

(** Function definitions nested in a list of statements. *)
Definition is_FunctionDef (s : stmt) : bool :=
  match s with FunctionDef _ _ _ _ _ => true | _ => false end.

(** The positional parameters of a signature, the whole parameter list in
    signature order, and Python's rule for positional defaults: the
    [defaults] belong to the last positional parameters. *)
Definition positional (a : arguments) : list arg := posonlyargs a ++ args a.

Definition optional_arg (o : option arg) : list arg :=
  match o with Some x => [x] | None => [] end.

Definition parameters (a : arguments) : list arg :=
  posonlyargs a ++ args a ++ optional_arg (vararg a)
  ++ kwonlyargs a ++ optional_arg (kwarg a).

Definition default_of (a : arguments) (i : nat) : option expr :=
  let n := List.length (positional a) in
  let d := List.length (defaults a) in
  if (i <? n - d)%nat then None else nth_error (defaults a) (i - (n - d)).

(** The error that a declaration raises, read off its syntax alone:
    [None] for a declaration inside the grammar and for an expression
    that is not a declaration. *)
Definition declaration_error (value : expr) : option ValueError :=
  match value with
  | BinOp lhs MatMult rhs =>
      match lhs with
      | Name x _ =>
          match rhs with
          | Call _ arguments _ =>
              option_map (ExpectedNameOrConstant x)
                         (find (fun a => negb (simple_argument a)) arguments)
          | _ => Some (ExpectedDistribution rhs)
          end
      | _ => Some (ExpectedName lhs)
      end
  | _ => None
  end.



(** The arguments of a function definition node. *)
Definition arguments_of (s : stmt) : option arguments :=
  match s with
  | FunctionDef _ fargs _ _ _ => Some fargs
  | _ => None
  end.

(** The name that [visit_FunctionDef] leaves in [fn_name]: each function
    definition met overwrites it, in visiting order. *)
Definition record_function (recorded : string) (s : stmt) : string :=
  match s with
  | FunctionDef name _ _ _ _ => (name ++ "_sampler")%string
  | _ => recorded
  end.

Definition recorded_name (tree : list stmt) (recorded : string) : string :=
  fold_left record_function (flat_map statements tree) recorded.

(** The shape that [visit_FunctionDef] gives to a function definition. *)
Definition sampler_definition (s : stmt) : Prop :=
  match s with
  | FunctionDef name fargs _ decs _ =>
      decs = []
      /\ (exists original, name = (original ++ "_sampler")%string)
      /\ (exists middle,
            args fargs = mk_arg "rng_key" None None :: middle
                         ++ [mk_arg "sample_shape" None None])
      /\ (exists ds, defaults fargs = ds ++ [Tuple [] Load])
  | _ => True
  end.

(** ** Basic facts *)

(** An induction principle that reaches the statements nested in the
    bodies of compound statements. *)
Section StmtInd.
Variable P : stmt -> Prop.
Hypothesis HFunctionDef : forall name fargs body decorator_list returns,
  Forall P body -> P (FunctionDef name fargs body decorator_list returns).
Hypothesis HReturn : forall value, P (Return value).
Hypothesis HAssign : forall targets value tc, P (Assign targets value tc).
Hypothesis HFor : forall target iter body orelse,
  Forall P body -> Forall P orelse -> P (For target iter body orelse).
Hypothesis HWhile : forall test body orelse,
  Forall P body -> Forall P orelse -> P (While test body orelse).
Hypothesis HIf : forall test body orelse,
  Forall P body -> Forall P orelse -> P (If test body orelse).
Hypothesis HExpr : forall value, P (Expr value).
Hypothesis HPass : P Pass.

Fixpoint stmt_nested_ind (s : stmt) : P s :=
  let all := fix all (l : list stmt) : Forall P l :=
    match l with
    | [] => Forall_nil P
    | x :: xs => Forall_cons x (stmt_nested_ind x) (all xs)
    end in
  match s with
  | FunctionDef name fargs body decorator_list returns =>
      HFunctionDef name fargs body decorator_list returns (all body)
  | Return value => HReturn value
  | Assign targets value tc => HAssign targets value tc
  | For target iter body orelse =>
      HFor target iter body orelse (all body) (all orelse)
  | While test body orelse =>
      HWhile test body orelse (all body) (all orelse)
  | If test body orelse => HIf test body orelse (all body) (all orelse)
  | Expr value => HExpr value
  | Pass => HPass
  end.
End StmtInd.


Example compile_two_normals :
  compile_to_sampler (resolver := dotted_name) two_normals =
  inr ([FunctionDef "m_sampler"
          (mk_arguments [] [mk_arg "rng_key" None None;
                            mk_arg "sample_shape" None None]
                        None [] [] None [Tuple [] Load])
          [Assign [Name "a" Store]
             (Call (Attribute (normal (Constant (CInt 0)) (Constant (CInt 1)))
                              "sample" Load)
                   [Name "rng_key" Load; Name "sample_shape" Load] []) None;
           Assign [Name "b" Store]
             (Call (Attribute (normal (Name "a" Load) (Constant (CInt 1)))
                              "sample" Load)
                   [Name "rng_key" Load] []) None]
          [] None], "m_sampler").
Proof. reflexivity. Qed.


Lemma mem_In (x : string) (xs : list string) : mem x xs = true <-> In x xs.
Proof.
  unfold mem. rewrite existsb_exists. split.
  - intros [y [Hy Heq]]. apply String.eqb_eq in Heq. now subst.
  - intros H. exists x. split; [assumption | apply String.eqb_refl].
Qed.

Lemma mem_app (x : string) (xs ys : list string) :
  mem x (xs ++ ys) = mem x xs || mem x ys.
Proof. unfold mem. apply existsb_app. Qed.

Lemma is_leaf_node_false (params : list expr) (vars : list string) :
  is_leaf_node params vars = false <->
  exists id ctx, In (Name id ctx) params /\ In id vars.
Proof.
  induction params as [| p rest IH]; simpl.
  - split; [discriminate | intros (? & ? & [] & _)].
  - destruct p as [id ctx | | | | | | | |];
      try (rewrite IH; split;
           [ intros (i & c & Hin & Hv); exists i, c; auto
           | intros (i & c & [Heq | Hin] & Hv);
             [discriminate | exists i, c; auto] ]).
    destruct (mem id vars) eqn:Hm.
    + split; [intros _ | reflexivity].
      exists id, ctx. split; [now left | now apply mem_In].
    + rewrite IH. split.
      * intros (i & c & Hin & Hv). exists i, c. auto.
      * intros (i & c & [Heq | Hin] & Hv).
        -- injection Heq as -> ->. apply mem_In in Hv. congruence.
        -- exists i, c. auto.
Qed.

Lemma is_leaf_node_names (params : list expr) (vars : list string) :
  is_leaf_node params vars = is_leaf_node (filter is_Name params) vars.
Proof.
  induction params as [| p rest IH]; simpl; [reflexivity |].
  destruct p; simpl; try assumption.
  now rewrite IH.
Qed.

(** C1: [is_leaf_node] answers leaf (true) exactly when no argument is a
    name reference whose identifier is in the registry; the arguments that
    are not name references (constants, calls, any other expression) play
    no part in the answer, and alone they always give leaf. *)
Theorem is_leaf_node_iff_no_declared_name (params : list expr) (vars : list string) :
  (is_leaf_node params vars = true <->
   ~ exists id ctx, In (Name id ctx) params /\ In id vars)
  /\ is_leaf_node params vars = is_leaf_node (filter is_Name params) vars
  /\ is_leaf_node (filter (fun p => negb (is_Name p)) params) vars = true.
Proof.
  split; [| split].
  - rewrite <- is_leaf_node_false.
    destruct (is_leaf_node params vars); split; congruence.
  - apply is_leaf_node_names.
  - destruct (is_leaf_node (filter (fun p => negb (is_Name p)) params) vars) eqn:E;
      [reflexivity |].
    apply is_leaf_node_false in E. destruct E as (id & ctx & Hin & _).
    apply filter_In in Hin. destruct Hin as [_ Hn]. discriminate.
Qed.

(** ** The list loop of [generic_visit] *)

Section VisitList.
Context {A B : Type} (v : A -> M B).

Lemma visit_list_cons (x : A) (xs : list A) (c : SamplerCompiler) :
  visit_list v (x :: xs) c =
  match v x c with
  | inl e => inl e
  | inr (y, c1) =>
      match visit_list v xs c1 with
      | inl e => inl e
      | inr (ys, c2) => inr (y :: ys, c2)
      end
  end.
Proof.
  simpl. unfold bind. destruct (v x c) as [e | [y c1]]; [reflexivity |].
  destruct (visit_list v xs c1) as [e | [ys c2]]; reflexivity.
Qed.

Lemma visit_list_app (l1 l2 : list A) (c : SamplerCompiler) :
  visit_list v (l1 ++ l2) c =
  match visit_list v l1 c with
  | inl e => inl e
  | inr (l1', c1) =>
      match visit_list v l2 c1 with
      | inl e => inl e
      | inr (l2', c2) => inr (l1' ++ l2', c2)
      end
  end.
Proof.
  revert c. induction l1 as [| x xs IH]; intros c.
  - simpl. unfold ret.
    destruct (visit_list v l2 c) as [e | [l2' c2]]; reflexivity.
  - rewrite <- app_comm_cons, !visit_list_cons.
    destruct (v x c) as [e | [y c1]]; [reflexivity |].
    rewrite IH.
    destruct (visit_list v xs c1) as [e | [ys c2]]; [reflexivity |].
    destruct (visit_list v l2 c2) as [e | [l2' c3]]; reflexivity.
Qed.

Lemma visit_list_length (l : list A) (c : SamplerCompiler)
    (l' : list B) (c' : SamplerCompiler) :
  visit_list v l c = inr (l', c') -> List.length l' = List.length l.
Proof.
  revert c l' c'. induction l as [| x xs IH]; intros c l' c' H.
  - injection H as <- _. reflexivity.
  - rewrite visit_list_cons in H.
    destruct (v x c) as [e | [y c1]]; [discriminate |].
    destruct (visit_list v xs c1) as [e | [ys c2]] eqn:E; [discriminate |].
    injection H as <- _. simpl. f_equal. eapply IH, E.
Qed.

(** A failing loop fails at its first failing element, after the
    elements before it were visited. *)
Lemma visit_list_error (l : list A) (c : SamplerCompiler) (e : ValueError) :
  visit_list v l c = inl e ->
  exists pre x post pre' c1,
    l = pre ++ x :: post /\ visit_list v pre c = inr (pre', c1)
    /\ v x c1 = inl e.
Proof.
  revert c. induction l as [| x xs IH]; intros c H; [discriminate |].
  rewrite visit_list_cons in H.
  destruct (v x c) as [e0 | [y c1]] eqn:Ex.
  - injection H as ->. exists [], x, xs, [], c. auto.
  - destruct (visit_list v xs c1) as [e0 | [ys c2]] eqn:E; [| discriminate].
    injection H as ->.
    destruct (IH _ E) as (pre & x0 & post & pre' & c0 & -> & Hpre & Hx).
    exists (x :: pre), x0, post, (y :: pre'), c0. repeat split; trivial.
    rewrite visit_list_cons, Ex, Hpre. reflexivity.
Qed.

(** The element at a position of the result comes from visiting the
    element at that position, in the state left by the elements before. *)
Lemma visit_list_nth (l : list A) (c : SamplerCompiler)
    (l' : list B) (c' : SamplerCompiler) (i : nat) (x : A) :
  visit_list v l c = inr (l', c') -> nth_error l i = Some x ->
  exists pre' c1 y c2,
    visit_list v (firstn i l) c = inr (pre', c1)
    /\ v x c1 = inr (y, c2) /\ nth_error l' i = Some y.
Proof.
  revert c l' i. induction l as [| a xs IH]; intros c l' i H Hi.
  - destruct i; discriminate.
  - rewrite visit_list_cons in H.
    destruct (v a c) as [e | [y c1]] eqn:Ea; [discriminate |].
    destruct (visit_list v xs c1) as [e | [ys c2]] eqn:E; [discriminate |].
    injection H as <- <-.
    destruct i as [| i]; simpl in Hi.
    + injection Hi as ->. exists [], c, y, c1. auto.
    + destruct (IH _ _ _ E Hi) as (pre' & c0 & y0 & c3 & Hpre & Hx & Hn).
      exists (y :: pre'), c0, y0, c3. repeat split; trivial.
      simpl firstn. rewrite visit_list_cons, Ea, Hpre. reflexivity.
Qed.

(** The registry after the loop, from what each element adds. *)
Lemma visit_list_model_vars (g : A -> list string) (l : list A) :
  Forall (fun x => forall c y c', v x c = inr (y, c') ->
                   model_vars c' = model_vars c ++ g x) l ->
  forall c l' c', visit_list v l c = inr (l', c') ->
                  model_vars c' = model_vars c ++ flat_map g l.
Proof.
  induction 1 as [| x xs Hx _ IH]; intros c l' c' H.
  - injection H as _ <-. simpl. now rewrite app_nil_r.
  - rewrite visit_list_cons in H.
    destruct (v x c) as [e | [y c1]] eqn:Ex; [discriminate |].
    destruct (visit_list v xs c1) as [e | [ys c2]] eqn:E; [discriminate |].
    injection H as _ <-. simpl.
    rewrite (IH _ _ _ E), (Hx _ _ _ Ex), app_assoc. reflexivity.
Qed.

(** The recorded name survives a loop whose elements keep it. *)
Lemma visit_list_fn_name (l : list A) :
  Forall (fun x => forall c y c', v x c = inr (y, c') ->
                   fn_name c' = fn_name c) l ->
  forall c l' c', visit_list v l c = inr (l', c') -> fn_name c' = fn_name c.
Proof.
  induction 1 as [| x xs Hx _ IH]; intros c l' c' H.
  - injection H as _ <-. reflexivity.
  - rewrite visit_list_cons in H.
    destruct (v x c) as [e | [y c1]] eqn:Ex; [discriminate |].
    destruct (visit_list v xs c1) as [e | [ys c2]] eqn:E; [discriminate |].
    injection H as _ <-.
    rewrite (IH _ _ _ E). eapply Hx, Ex.
Qed.

End VisitList.

(** ** The transformer, statement by statement *)

Lemma flat_map_flat_map {X Y Z : Type} (f : X -> list Y) (g : Y -> list Z)
    (l : list X) :
  flat_map g (flat_map f l) = flat_map (fun x => flat_map g (f x)) l.
Proof.
  induction l as [| x xs IH]; simpl; [reflexivity |].
  now rewrite flat_map_app, IH.
Qed.

Lemma check_arguments_run (x : string) (arguments : list expr)
    (c : SamplerCompiler) :
  check_arguments x arguments c =
  match find (fun a => negb (simple_argument a)) arguments with
  | Some a => inl (ExpectedNameOrConstant x a)
  | None => inr (tt, c)
  end.
Proof.
  induction arguments as [| a rest IH]; simpl; [reflexivity |].
  unfold simple_argument at 1.
  destruct (negb (is_Name a || is_Constant a)); [reflexivity | exact IH].
Qed.

Section Rewriter.
Context {resolver : NameResolver}.

Lemma visit_Expr_declaration (x : string) (ctx : expr_context) (f : expr)
    (arguments : list expr) (kws : list (option string * expr))
    (c : SamplerCompiler) :
  visit_Expr (BinOp (Name x ctx) MatMult (Call f arguments kws)) c =
  match find (fun a => negb (simple_argument a)) arguments with
  | Some a => inl (ExpectedNameOrConstant x a)
  | None =>
      inr (new_sample_expression x (read_object_name f) arguments
             (is_leaf_node arguments (model_vars c ++ [x])),
           appended c x)
  end.
Proof.
  unfold visit_Expr, bind, append_model_var.
  rewrite check_arguments_run.
  destruct (find _ arguments); reflexivity.
Qed.

Lemma visit_Expr_other (value : expr) (c : SamplerCompiler) :
  is_declaration (Expr value) = false -> visit_Expr value c = inr (Expr value, c).
Proof.
  destruct value as [| | | | l op r | | | |]; try reflexivity.
  destruct op; try reflexivity. discriminate.
Qed.

Lemma visit_Expr_error (value : expr) (c : SamplerCompiler) (e : ValueError) :
  visit_Expr value c = inl e <-> declaration_error value = Some e.
Proof.
  destruct value as [| | | | l op r | | | |]; try (split; discriminate).
  destruct op; try (split; discriminate).
  destruct l as [x ctx | | | | | | | |];
    try (cbv [visit_Expr raise declaration_error]; split; congruence).
  destruct r as [| | f arguments kws | | | | | |];
    try (cbv [visit_Expr bind append_model_var raise declaration_error];
         split; congruence).
  rewrite visit_Expr_declaration. simpl.
  destruct (find _ arguments); simpl; split; congruence.
Qed.

Lemma visit_Expr_total (value : expr) (c : SamplerCompiler) :
  declaration_error value = None ->
  exists s', visit_Expr value c = inr (s', {| model_vars := model_vars c ++ declared_name (Expr value);
                                             fn_name := fn_name c |})
             /\ is_simple s' = true.
Proof.
  intros H.
  destruct (is_declaration (Expr value)) eqn:D.
  - destruct value as [| | | | l op r | | | |]; try discriminate D.
    destruct op; try discriminate D.
    destruct l as [x ctx | | | | | | | |]; try discriminate H.
    destruct r as [| | f arguments kws | | | | | |]; try discriminate H.
    rewrite visit_Expr_declaration. simpl in H.
    destruct (find _ arguments); [discriminate |].
    eexists. split; reflexivity.
  - rewrite (visit_Expr_other _ _ D). exists (Expr value). split; [| reflexivity].
    assert (declared_name (Expr value) = []) as ->.
    { destruct value as [| | | | l op r | | | |]; try reflexivity.
      destruct op; try reflexivity. discriminate D. }
    rewrite app_nil_r. destruct c; reflexivity.
Qed.

Lemma visit_Expr_state (value : expr) (c : SamplerCompiler) (s' : stmt)
    (c' : SamplerCompiler) :
  visit_Expr value c = inr (s', c') ->
  model_vars c' = model_vars c ++ declared_name (Expr value)
  /\ fn_name c' = fn_name c.
Proof.
  intros H.
  destruct (declaration_error value) as [e |] eqn:E.
  - apply visit_Expr_error with (c := c) in E. congruence.
  - destruct (visit_Expr_total value c E) as (s0 & H0 & _).
    rewrite H0 in H. injection H as _ <-. split; reflexivity.
Qed.

(** The three compound statements visit their two statement lists one
    after the other: this is one loop over the concatenated lists. *)
Lemma visit_two_lists (K : list stmt -> list stmt -> stmt)
    (body orelse : list stmt) (c : SamplerCompiler) :
  (body' <- visit_list visit body ;;
   orelse' <- visit_list visit orelse ;;
   ret (K body' orelse')) c =
  match visit_list visit (body ++ orelse) c with
  | inl e => inl e
  | inr (l, c') =>
      inr (K (firstn (List.length body) l) (skipn (List.length body) l), c')
  end.
Proof.
  rewrite visit_list_app. unfold bind.
  destruct (visit_list visit body c) as [e | [body' c1]] eqn:E1; [reflexivity |].
  destruct (visit_list visit orelse c1) as [e | [orelse' c2]]; [reflexivity |].
  unfold ret. apply visit_list_length in E1. rewrite <- E1.
  rewrite firstn_app, skipn_app, Nat.sub_diag, firstn_all, skipn_all.
  simpl. now rewrite app_nil_r.
Qed.

Lemma statements_children (s : stmt) :
  statements s = s :: flat_map statements (children s).
Proof. destruct s; simpl; try reflexivity; now rewrite flat_map_app. Qed.

(** One equation for [visit] on every statement that is not a bare
    expression: its children are visited in order, and a function
    definition first records its new name. *)
Lemma visit_children (s : stmt) (c : SamplerCompiler) :
  (forall value, s <> Expr value) ->
  exists (K : list stmt -> stmt) (c0 : SamplerCompiler),
    model_vars c0 = model_vars c
    /\ (is_FunctionDef s = false -> c0 = c)
    /\ visit s c =
       match visit_list visit (children s) c0 with
       | inl e => inl e
       | inr (l, c') => inr (K l, c')
       end.
Proof.
  intros Hne. destruct s as [name fargs body decs returns | value | targets value tc
                            | target iter body orelse | test body orelse
                            | test body orelse | value |].
  - exists (fun l => FunctionDef (name ++ "_sampler")%string (sampler_arguments fargs) l [] returns),
           {| model_vars := model_vars c; fn_name := (name ++ "_sampler")%string |}.
    split; [reflexivity |]. split; [discriminate |].
    simpl. unfold visit_FunctionDef, bind, set_fn_name, ret.
    destruct (visit_list visit body _) as [e | [l c']]; reflexivity.
  - exists (fun _ => Return value), c. repeat split; reflexivity.
  - exists (fun _ => Assign targets value tc), c. repeat split; reflexivity.
  - exists (fun l => For target iter (firstn (List.length body) l) (skipn (List.length body) l)), c.
    split; [reflexivity |]. split; [reflexivity |].
    simpl. apply (visit_two_lists (For target iter)).
  - exists (fun l => While test (firstn (List.length body) l) (skipn (List.length body) l)), c.
    split; [reflexivity |]. split; [reflexivity |].
    simpl. apply (visit_two_lists (While test)).
  - exists (fun l => If test (firstn (List.length body) l) (skipn (List.length body) l)), c.
    split; [reflexivity |]. split; [reflexivity |].
    simpl. apply (visit_two_lists (If test)).
  - now destruct (Hne value).
  - exists (fun _ => Pass), c. repeat split; reflexivity.
Qed.

Lemma stmt_children_ind (P : stmt -> Prop) :
  (forall s, Forall P (children s) -> P s) -> forall s, P s.
Proof.
  intros step. induction s using stmt_nested_ind; apply step; simpl;
    try constructor; try apply Forall_app; auto.
Qed.

Lemma Expr_or_not (s : stmt) :
  (exists value, s = Expr value) \/ (forall value, s <> Expr value).
Proof. destruct s; try (right; discriminate). left. eauto. Qed.

Lemma declared_name_not_Expr (s : stmt) :
  (forall value, s <> Expr value) -> declared_name s = [].
Proof. intros Hne. destruct s; try reflexivity. now destruct (Hne value). Qed.

(** What a visit adds to the registry: the left-hand names of the
    declarations it went through, in visiting order. *)
Lemma visit_model_vars (s : stmt) :
  forall c s' c', visit s c = inr (s', c') ->
    model_vars c' = model_vars c ++ flat_map declared_name (statements s).
Proof.
  induction s as [s IH] using stmt_children_ind. intros c s' c' Hv.
  destruct (Expr_or_not s) as [[value ->] | Hne].
  - simpl in Hv. apply visit_Expr_state in Hv. destruct Hv as [-> _].
    simpl. now rewrite app_nil_r.
  - destruct (visit_children s c Hne) as (K & c0 & Hc0 & _ & Heq).
    rewrite Heq in Hv.
    destruct (visit_list visit (children s) c0) as [e | [l c1]] eqn:E;
      [discriminate |].
    injection Hv as _ <-.
    rewrite (visit_list_model_vars visit _ _ IH _ _ _ E), Hc0.
    rewrite statements_children. simpl.
    now rewrite (declared_name_not_Expr s Hne), flat_map_flat_map.
Qed.

(** Only function definitions change the recorded name. *)
Lemma visit_fn_name (s : stmt) :
  Forall (fun x => is_FunctionDef x = false) (statements s) ->
  forall c s' c', visit s c = inr (s', c') -> fn_name c' = fn_name c.
Proof.
  induction s as [s IH] using stmt_children_ind. intros Hno c s' c' Hv.
  destruct (Expr_or_not s) as [[value ->] | Hne].
  - simpl in Hv. now apply visit_Expr_state in Hv.
  - destruct (visit_children s c Hne) as (K & c0 & _ & Hc0 & Heq).
    rewrite Heq in Hv. rewrite statements_children in Hno.
    apply Forall_cons_iff in Hno. destruct Hno as [Hs Hno].
    rewrite (Hc0 Hs) in Hv.
    destruct (visit_list visit (children s) c) as [e | [l c1]] eqn:E;
      [discriminate |].
    injection Hv as _ <-.
    apply (visit_list_fn_name visit (children s)) with (l' := l); [| exact E].
    apply Forall_flat_map in Hno. rewrite Forall_forall in *.
    intros x Hx. apply (IH x Hx). apply (Hno x Hx).
Qed.

(** An error comes from a declaration outside the grammar that the visit
    reached, and it is the error of that declaration. *)
Lemma visit_error_sound (s : stmt) :
  forall c e, visit s c = inl e ->
    exists value, In (Expr value) (statements s)
                  /\ declaration_error value = Some e.
Proof.
  induction s as [s IH] using stmt_children_ind. intros c e Hv.
  destruct (Expr_or_not s) as [[value ->] | Hne].
  - exists value. split; [now left |]. now apply (visit_Expr_error value c).
  - destruct (visit_children s c Hne) as (K & c0 & _ & _ & Heq).
    rewrite Heq in Hv.
    destruct (visit_list visit (children s) c0) as [e0 | [l c1]] eqn:E;
      [| discriminate].
    injection Hv as ->.
    apply visit_list_error in E.
    destruct E as (pre & x & post & pre' & c1 & Hl & _ & Hx).
    assert (Hin : In x (children s)) by (rewrite Hl; apply in_elt).
    rewrite Forall_forall in IH.
    destruct (IH x Hin _ _ Hx) as (value & Hval & Herr).
    exists value. split; [| exact Herr].
    rewrite statements_children. right. apply in_flat_map. eauto.
Qed.


(** The same facts for a list of statements: a body or a module. *)
Lemma tree_model_vars (tree : list stmt) (c : SamplerCompiler)
    (tree' : list stmt) (c' : SamplerCompiler) :
  visit_list visit tree c = inr (tree', c') ->
  model_vars c' = model_vars c ++ declared_names tree.
Proof.
  intros Hv. unfold declared_names. rewrite flat_map_flat_map.
  apply (visit_list_model_vars visit _ tree) with (l' := tree'); [| exact Hv].
  apply Forall_forall. intros s _. apply visit_model_vars.
Qed.

Lemma tree_error_sound (tree : list stmt) (c : SamplerCompiler) (e : ValueError) :
  visit_list visit tree c = inl e ->
  exists value, In (Expr value) (flat_map statements tree)
                /\ declaration_error value = Some e.
Proof.
  intros Hv. apply visit_list_error in Hv.
  destruct Hv as (pre & x & post & pre' & c1 & -> & _ & Hx).
  destruct (visit_error_sound x _ _ Hx) as (value & Hin & Herr).
  exists value. split; [| exact Herr].
  apply in_flat_map. exists x. split; [apply in_elt | exact Hin].
Qed.


Lemma tree_total (tree : list stmt) (c : SamplerCompiler) :
  (forall value, In (Expr value) (flat_map statements tree) ->
                 declaration_error value = None) ->
  exists tree' c', visit_list visit tree c = inr (tree', c').
Proof.
  intros Hok.
  destruct (visit_list visit tree c) as [e | [tree' c']] eqn:E; [| eauto].
  apply tree_error_sound in E. destruct E as (value & Hin & Herr).
  rewrite (Hok value Hin) in Herr. discriminate.
Qed.












(** C4: the synthesized statement assigns, to the variable, the result
    of calling [sample] on the named distribution built from exactly the
    given argument expressions; the first argument of the draw is the
    randomness source [rng_key], and [sample_shape] is passed if and only
    if the leaf flag is true.  [visit_Expr] synthesizes this statement
    for every declaration that passes its checks. *)
Theorem sample_statement_synthesized (name distribution : string)
    (arguments : list expr) (leaf : bool) :
  (exists draw_args,
     new_sample_expression name distribution arguments leaf =
       Assign [Name name Store]
              (Call (Attribute (Call (Name distribution Load) arguments [])
                               "sample" Load)
                    draw_args [])
              None
     /\ hd_error draw_args = Some (Name "rng_key" Load)
     /\ (In (Name "sample_shape" Load) draw_args <-> leaf = true)
     /\ draw_args = Name "rng_key" Load
                    :: (if leaf then [Name "sample_shape" Load] else []))
  /\ (forall ctx f kws c,
        visit_Expr (BinOp (Name name ctx) MatMult (Call f arguments kws)) c =
        match find (fun a => negb (simple_argument a)) arguments with
        | Some a => inl (ExpectedNameOrConstant name a)
        | None =>
            inr (new_sample_expression name (read_object_name f) arguments
                   (is_leaf_node arguments (model_vars c ++ [name])),
                 appended c name)
        end).
Proof.
  split.
  - exists (Name "rng_key" Load
            :: (if leaf then [Name "sample_shape" Load] else [])).
    destruct leaf; simpl; repeat split; auto; try discriminate.
    intros [H | []]. discriminate.
  - intros ctx f kws c. apply visit_Expr_declaration.
Qed.

(** C9: the keyword arguments of the distribution call play no part:
    the checks and the result are those of the same declaration without
    keywords, and the distribution call of the synthesized statement has
    an empty keyword list. *)
Theorem keywords_dropped (x : string) (ctx : expr_context) (f : expr)
    (arguments : list expr) (kws : list (option string * expr))
    (c : SamplerCompiler) :
  visit_Expr (BinOp (Name x ctx) MatMult (Call f arguments kws)) c =
  visit_Expr (BinOp (Name x ctx) MatMult (Call f arguments [])) c
  /\ declaration_error (BinOp (Name x ctx) MatMult (Call f arguments kws)) =
     declaration_error (BinOp (Name x ctx) MatMult (Call f arguments []))
  /\ (forall s c',
        visit_Expr (BinOp (Name x ctx) MatMult (Call f arguments kws)) c
          = inr (s, c') ->
        exists draw_args,
          s = Assign [Name x Store]
                (Call (Attribute
                         (Call (Name (read_object_name f) Load) arguments [])
                         "sample" Load)
                      draw_args [])
                None).
Proof.
  split; [| split].
  - now rewrite !visit_Expr_declaration.
  - reflexivity.
  - intros s c'. rewrite visit_Expr_declaration.
    destruct (find _ arguments); [discriminate |].
    intros H. injection H as <- _. eexists. reflexivity.
Qed.

Lemma visit_FunctionDef_run (name : string) (fargs : arguments)
    (body : list stmt) (decs : list expr) (returns : option expr)
    (c : SamplerCompiler) :
  visit (FunctionDef name fargs body decs returns) c =
  match visit_list visit body
          {| model_vars := model_vars c; fn_name := (name ++ "_sampler")%string |}
  with
  | inl e => inl e
  | inr (body', c') =>
      inr (FunctionDef (name ++ "_sampler")%string (sampler_arguments fargs)
                       body' [] returns, c')
  end.
Proof.
  simpl. unfold visit_FunctionDef, bind, set_fn_name, ret.
  destruct (visit_list visit body _) as [e | [body' c']]; reflexivity.
Qed.

Lemma positional_sampler_arguments (a : arguments) :
  List.length (positional (sampler_arguments a)) = List.length (positional a) + 2
  /\ List.length (defaults (sampler_arguments a)) = List.length (defaults a) + 1.
Proof.
  unfold positional. simpl. rewrite !length_app. simpl.
  rewrite !length_app. simpl. lia.
Qed.

Lemma default_of_sample_shape (a : arguments) :
  List.length (defaults a) <= List.length (positional a) ->
  default_of (sampler_arguments a) (List.length (positional a) + 1)
  = Some (Tuple [] Load).
Proof.
  intros Hwf. unfold default_of.
  destruct (positional_sampler_arguments a) as [-> ->].
  destruct (Nat.ltb_spec (List.length (positional a) + 1)
              (List.length (positional a) + 2 - (List.length (defaults a) + 1)));
    [lia |].
  simpl defaults.
  replace (List.length (positional a) + 1
           - (List.length (positional a) + 2 - (List.length (defaults a) + 1)))
    with (List.length (defaults a)) by lia.
  rewrite nth_error_app2 by lia. now rewrite Nat.sub_diag.
Qed.

Lemma default_of_original (a : arguments) (i : nat) :
  List.length (defaults a) <= List.length (positional a) ->
  i < List.length (positional a) ->
  default_of (sampler_arguments a) (S i) = default_of a i.
Proof.
  intros Hwf Hi. unfold default_of.
  destruct (positional_sampler_arguments a) as [-> ->].
  destruct (Nat.ltb_spec (S i)
              (List.length (positional a) + 2 - (List.length (defaults a) + 1)));
    destruct (Nat.ltb_spec i
                (List.length (positional a) - List.length (defaults a)));
    try lia; [reflexivity |].
  simpl defaults. rewrite nth_error_app1 by lia. f_equal. lia.
Qed.

Lemma default_of_rng_key (a : arguments) :
  List.length (defaults a) <= List.length (positional a) ->
  default_of (sampler_arguments a) 0 = None.
Proof.
  intros Hwf. unfold default_of.
  destruct (positional_sampler_arguments a) as [-> ->].
  destruct (Nat.ltb_spec 0
              (List.length (positional a) + 2 - (List.length (defaults a) + 1)));
    [reflexivity | lia].
Qed.

(** X11: the rewritten function has its two new parameters in
    the list of ordinary (positional-or-keyword) parameters: [rng_key]
    in front of them and [sample_shape] behind them, with the empty tuple
    appended to the positional defaults; every other parameter is kept,
    in order.  So the signature has two more parameters, [sample_shape]
    is the last positional parameter and defaults to the empty tuple.
    When the original has no positional-only parameter, [rng_key] is the
    first parameter and has no default, and the original parameters
    follow it with their defaults; when it has no starred or keyword-only
    parameter, [sample_shape] is the last parameter. *)
Theorem sampler_signature (name : string) (fargs : arguments)
    (body : list stmt) (decs : list expr) (returns : option expr)
    (c : SamplerCompiler) (s' : stmt) (c' : SamplerCompiler) :
  visit (FunctionDef name fargs body decs returns) c = inr (s', c') ->
  List.length (defaults fargs) <= List.length (positional fargs) ->
  exists fargs',
    arguments_of s' = Some fargs'
    /\ parameters fargs' =
         posonlyargs fargs
         ++ mk_arg "rng_key" None None :: args fargs
         ++ mk_arg "sample_shape" None None :: optional_arg (vararg fargs)
         ++ kwonlyargs fargs ++ optional_arg (kwarg fargs)
    /\ List.length (parameters fargs') = List.length (parameters fargs) + 2
    /\ defaults fargs' = defaults fargs ++ [Tuple [] Load]
    /\ kw_defaults fargs' = kw_defaults fargs
    /\ positional fargs' =
         posonlyargs fargs
         ++ mk_arg "rng_key" None None :: args fargs
         ++ [mk_arg "sample_shape" None None]
    /\ default_of fargs' (List.length (positional fargs) + 1)
       = Some (Tuple [] Load)
    /\ (posonlyargs fargs = [] ->
          nth_error (parameters fargs') 0 = Some (mk_arg "rng_key" None None)
          /\ default_of fargs' 0 = None
          /\ (forall i, i < List.length (args fargs) ->
                nth_error (parameters fargs') (S i) = nth_error (args fargs) i
                /\ default_of fargs' (S i) = default_of fargs i))
    /\ (vararg fargs = None -> kwonlyargs fargs = [] -> kwarg fargs = None ->
          parameters fargs' =
            (posonlyargs fargs ++ mk_arg "rng_key" None None :: args fargs)
            ++ [mk_arg "sample_shape" None None]).
Proof.
  intros Hv Hwf. rewrite visit_FunctionDef_run in Hv.
  destruct (visit_list visit body _) as [e | [body' c1]]; [discriminate |].
  injection Hv as <- _.
  exists (sampler_arguments fargs). split; [reflexivity |].
  assert (Hparams : parameters (sampler_arguments fargs) =
            posonlyargs fargs
            ++ mk_arg "rng_key" None None :: args fargs
            ++ mk_arg "sample_shape" None None :: optional_arg (vararg fargs)
            ++ kwonlyargs fargs ++ optional_arg (kwarg fargs)).
  { unfold parameters. simpl. now rewrite <- !app_assoc. }
  split; [exact Hparams |].
  split.
  { rewrite Hparams. unfold parameters. rewrite !length_app. simpl.
    rewrite !length_app. simpl. rewrite !length_app. lia. }
  split; [reflexivity |]. split; [reflexivity |]. split; [reflexivity |].
  split; [now apply default_of_sample_shape |].
  split.
  - intros Hpos. rewrite Hparams, Hpos. simpl.
    split; [reflexivity |]. split; [now apply default_of_rng_key |].
    intros i Hi. split.
    + now rewrite nth_error_app1.
    + apply default_of_original; [exact Hwf |].
      unfold positional. rewrite Hpos. exact Hi.
  - intros Hv1 Hk Hkw. rewrite Hparams, Hv1, Hk, Hkw. simpl.
    now rewrite <- app_assoc.
Qed.

(** C7: a function definition comes back without decorators and renamed
    to its original name followed by [_sampler]; this name is recorded in
    [fn_name] before the body is visited and is still the recorded name
    afterwards when the body holds no nested function definition; the
    driver then looks up exactly the name of the function it compiled. *)
Theorem function_renamed_and_recorded (name : string) (fargs : arguments)
    (body : list stmt) (decs : list expr) (returns : option expr)
    (c : SamplerCompiler) (s' : stmt) (c' : SamplerCompiler) :
  visit (FunctionDef name fargs body decs returns) c = inr (s', c') ->
  exists fargs' body' c0,
    s' = FunctionDef (name ++ "_sampler")%string fargs' body' [] returns
    /\ fn_name c0 = (name ++ "_sampler")%string
    /\ model_vars c0 = model_vars c
    /\ visit_list visit body c0 = inr (body', c')
    /\ (Forall (fun x => is_FunctionDef x = false) (flat_map statements body) ->
        fn_name c' = (name ++ "_sampler")%string
        /\ (c = SamplerCompiler_init ->
            compile_to_sampler [FunctionDef name fargs body decs returns]
            = inr ([s'], (name ++ "_sampler")%string))).
Proof.
  intros Hv. pose proof Hv as Hrun. rewrite visit_FunctionDef_run in Hrun.
  destruct (visit_list visit body _) as [e | [body' c1]] eqn:E; [discriminate |].
  injection Hrun as <- <-.
  exists (sampler_arguments fargs), body',
         {| model_vars := model_vars c; fn_name := (name ++ "_sampler")%string |}.
  split; [reflexivity |]. split; [reflexivity |]. split; [reflexivity |].
  split; [exact E |].
  intros Hno.
  assert (Hname : fn_name c1 = (name ++ "_sampler")%string).
  { apply (visit_list_fn_name visit body) with (l' := body') in E; [exact E |].
    apply Forall_flat_map in Hno. rewrite Forall_forall in *.
    intros x Hx. apply visit_fn_name. apply (Hno x Hx). }
  split; [exact Hname |].
  intros ->. unfold compile_to_sampler.
  rewrite visit_list_cons, Hv. simpl. now rewrite Hname.
Qed.

Lemma firstn_S_nth_error {X : Type} (l : list X) (i : nat) (x : X) :
  nth_error l i = Some x -> firstn (S i) l = firstn i l ++ [x].
Proof.
  revert i. induction l as [| a l IH]; intros [| i] H; try discriminate.
  - injection H as ->. reflexivity.
  - simpl in H. change (a :: firstn (S i) l = a :: firstn i l ++ [x]).
    now rewrite (IH _ H).
Qed.

Lemma declared_names_app (l1 l2 : list stmt) :
  declared_names (l1 ++ l2) = declared_names l1 ++ declared_names l2.
Proof. unfold declared_names. now rewrite !flat_map_app. Qed.

(** The statement that replaces a declaration of the body, with the
    registry against which it is classified. *)
Lemma declaration_at (body : list stmt) (c : SamplerCompiler)
    (body' : list stmt) (c' : SamplerCompiler) (i : nat) (x : string)
    (ctx : expr_context) (f : expr) (arguments : list expr)
    (kws : list (option string * expr)) :
  visit_list visit body c = inr (body', c') ->
  nth_error body i = Some (Expr (BinOp (Name x ctx) MatMult (Call f arguments kws))) ->
  nth_error body' i =
  Some (new_sample_expression x (read_object_name f) arguments
          (is_leaf_node arguments
             (model_vars c ++ declared_names (firstn (S i) body)))).
Proof.
  intros Hv Hi.
  destruct (visit_list_nth visit _ _ _ _ _ _ Hv Hi)
    as (pre' & c1 & y & c2 & Hpre & Hx & Hy).
  rewrite Hy. f_equal.
  change (visit_Expr (BinOp (Name x ctx) MatMult (Call f arguments kws)) c1
          = inr (y, c2)) in Hx.
  rewrite visit_Expr_declaration in Hx.
  destruct (find _ arguments); [discriminate |].
  injection Hx as <- _.
  rewrite (tree_model_vars _ _ _ _ Hpre), (firstn_S_nth_error _ _ _ Hi).
  rewrite declared_names_app, app_assoc. reflexivity.
Qed.


Lemma grammatical_declaration (value : expr) :
  is_declaration (Expr value) = true -> declaration_error value = None ->
  exists x ctx f arguments kws,
    value = BinOp (Name x ctx) MatMult (Call f arguments kws).
Proof.
  intros D H.
  destruct value as [| | | | l op r | | | |]; try discriminate D.
  destruct op; try discriminate D.
  destruct l as [x ctx | | | | | | | |]; try discriminate H.
  destruct r as [| | f arguments kws | | | | | |]; try discriminate H.
  now exists x, ctx, f, arguments, kws.
Qed.


(** C10 (amended): after a successful visit the registry is the registry
    before it followed by the left-hand names of the declarations
    visited, in order; a plain assignment is returned as it is and leaves
    the registry as it is; and a declaration none of whose name arguments
    is in the registry, is the left-hand name of a declaration before it,
    or is its own target, is classified leaf and is given
    [sample_shape]. *)
Theorem registry_is_declared_names (body : list stmt) (c : SamplerCompiler)
    (body' : list stmt) (c' : SamplerCompiler) :
  visit_list visit body c = inr (body', c') ->
  model_vars c' = model_vars c ++ declared_names body
  /\ (forall targets value tc c0,
        visit (Assign targets value tc) c0 = inr (Assign targets value tc, c0))
  /\ (forall i x ctx f arguments kws,
        nth_error body i
          = Some (Expr (BinOp (Name x ctx) MatMult (Call f arguments kws))) ->
        (forall id ctx', In (Name id ctx') arguments ->
           ~ In id (model_vars c ++ declared_names (firstn i body)) /\ id <> x) ->
        nth_error body' i =
        Some (Assign [Name x Store]
                (Call (Attribute
                         (Call (Name (read_object_name f) Load) arguments [])
                         "sample" Load)
                      [Name "rng_key" Load; Name "sample_shape" Load] [])
                None)).
Proof.
  intros Hv. split; [eapply tree_model_vars, Hv |].
  split; [reflexivity |].
  intros i x ctx f arguments kws Hi Hfree.
  rewrite (declaration_at _ _ _ _ _ _ _ _ _ _ Hv Hi).
  assert (Hleaf : is_leaf_node arguments
            (model_vars c ++ declared_names (firstn (S i) body)) = true).
  { destruct (is_leaf_node arguments _) eqn:E; [reflexivity |].
    apply is_leaf_node_false in E. destruct E as (id & ctx' & Hin & Hreg).
    destruct (Hfree id ctx' Hin) as [Hnot Hne].
    rewrite (firstn_S_nth_error _ _ _ Hi), declared_names_app, app_assoc in Hreg.
    apply in_app_or in Hreg. destruct Hreg as [Hreg | Hreg]; [contradiction |].
    destruct Hreg as [Heq | []]. congruence. }
  rewrite Hleaf. reflexivity.
Qed.

End Rewriter.

(** ** The claims on concrete models *)

(** The rejection scenarios: [Normal(0, 1) @ x], [x @ 5],
    [x @ Normal(Normal(0, 1), 1)] and [x @ Normal(-1, 1)]. *)
Example left_operand_rejected :
  compile_to_sampler (resolver := dotted_name)
    [FunctionDef "m" no_arguments
       [Expr (BinOp (normal (Constant (CInt 0)) (Constant (CInt 1))) MatMult
                    (Name "x" Load))] [] None]
  = inl (ExpectedName (normal (Constant (CInt 0)) (Constant (CInt 1)))).
Proof. reflexivity. Qed.

Example right_operand_rejected :
  compile_to_sampler (resolver := dotted_name)
    [FunctionDef "m" no_arguments [declare "x" (Constant (CInt 5))] [] None]
  = inl (ExpectedDistribution (Constant (CInt 5))).
Proof. reflexivity. Qed.

Example nested_call_rejected :
  compile_to_sampler (resolver := dotted_name)
    [FunctionDef "m" no_arguments
       [declare "x" (normal (normal (Constant (CInt 0)) (Constant (CInt 1)))
                            (Constant (CInt 1)));
        declare "y" (Constant (CInt 5))] [] None]
  = inl (ExpectedNameOrConstant "x"
           (normal (Constant (CInt 0)) (Constant (CInt 1)))).
Proof. reflexivity. Qed.

Example negative_literal_rejected :
  compile_to_sampler (resolver := dotted_name)
    [FunctionDef "m" no_arguments
       [declare "x" (normal (UnaryOp USub (Constant (CInt 1)))
                            (Constant (CInt 1)))] [] None]
  = inl (ExpectedNameOrConstant "x" (UnaryOp USub (Constant (CInt 1)))).
Proof. reflexivity. Qed.


(** C2: on [x @ Normal(x, 1)] with an empty registry, the arguments
    reference no name of the registry as it is before the declaration, so
    the classifier answers leaf on that registry; [visit_Expr] appends
    the target first and classifies against the registry that already
    holds ["x"], and the statement it returns has no [sample_shape]. *)
Theorem self_reference_classified_with_own_name :
  is_leaf_node [Name "x" Load; Constant (CInt 1)]
               (model_vars SamplerCompiler_init) = true
  /\ visit_Expr (resolver := dotted_name) self_reference SamplerCompiler_init
     = inr (Assign [Name "x" Store]
              (Call (Attribute (normal (Name "x" Load) (Constant (CInt 1)))
                               "sample" Load)
                    [Name "rng_key" Load] [])
              None,
            {| model_vars := ["x"]; fn_name := "" |})
  /\ visit_Expr (resolver := dotted_name) self_reference SamplerCompiler_init
     <> inr (new_sample_expression "x" "Normal"
               [Name "x" Load; Constant (CInt 1)]
               (is_leaf_node [Name "x" Load; Constant (CInt 1)]
                             (model_vars SamplerCompiler_init)),
             {| model_vars := ["x"]; fn_name := "" |}).
Proof. repeat split. discriminate. Qed.


(** C5: on [def m(a=1, /, b=2)] the code returns [m_sampler(a, /,
    rng_key=1, b=2, sample_shape=())]: the first parameter is still [a],
    [rng_key] is the second one and it has a default, where the claim and
    the docstring of [compile_to_sampler] put [rng_key] first and without
    default. *)
Lemma rng_key_follows_positional_only :
  exists fargs' body' c',
    visit (resolver := dotted_name)
          (FunctionDef "m" positional_only_arguments [Pass] [] None)
          SamplerCompiler_init
    = inr (FunctionDef "m_sampler" fargs' body' [] None, c')
    /\ nth_error (parameters fargs') 0 = Some (mk_arg "a" None None)
    /\ nth_error (parameters fargs') 0 <> Some (mk_arg "rng_key" None None)
    /\ nth_error (parameters fargs') 1 = Some (mk_arg "rng_key" None None)
    /\ default_of fargs' 1 = Some (Constant (CInt 1))
    /\ default_of positional_only_arguments 0 = Some (Constant (CInt 1))
    /\ default_of fargs' 0 = None.
Proof.
  do 3 eexists. split; [reflexivity |].
  repeat split. discriminate.
Qed.

(** In [x @ Normal(0, 1); x = 5; y @ Normal(x, 1)] the only name argument
    of [y] is the target of the plain assignment before it, and [y] is
    classified non-leaf: its statement has no [sample_shape]. *)
Lemma rebound_name_is_not_leaf :
  (forall id ctx, In (Name id ctx) [Name "x" Load; Constant (CInt 1)] ->
     exists value tc,
       In (Assign [Name id Store] value tc) (firstn 2 rebound_body))
  /\ exists body' c',
       visit_list (visit (resolver := dotted_name)) rebound_body
                  SamplerCompiler_init = inr (body', c')
       /\ model_vars c' = ["x"; "y"]
       /\ nth_error body' 2 =
          Some (Assign [Name "y" Store]
                  (Call (Attribute (normal (Name "x" Load) (Constant (CInt 1)))
                                   "sample" Load)
                        [Name "rng_key" Load] [])
                  None).
Proof.
  split.
  - intros id ctx [H | [H | []]]; [| discriminate H].
    injection H as <- _. exists (Constant (CInt 5)), None. simpl. auto.
  - do 2 eexists. split; [reflexivity |]. split; reflexivity.
Qed.

(** [def m(mu=0)] with the body of [plain_then_declared]. *)
Lemma sampler_signature_witness :
  exists s' c',
    visit (resolver := dotted_name)
          (FunctionDef "m" one_default_arguments plain_then_declared
                       [Name "model" Load] None)
          SamplerCompiler_init = inr (s', c')
    /\ List.length (defaults one_default_arguments)
       <= List.length (positional one_default_arguments)
    /\ exists fargs',
         arguments_of s' = Some fargs'
         /\ parameters fargs' = [mk_arg "rng_key" None None;
                                 mk_arg "mu" None None;
                                 mk_arg "sample_shape" None None]
         /\ default_of fargs' 0 = None
         /\ default_of fargs' 1 = Some (Constant (CInt 0))
         /\ default_of fargs' 2 = Some (Tuple [] Load).
Proof.
  do 2 eexists. split; [reflexivity |].
  split; [simpl; lia |].
  destruct (sampler_signature (resolver := dotted_name)
              "m" one_default_arguments plain_then_declared
              [Name "model" Load] None SamplerCompiler_init _ _
              eq_refl (le_n 1))
    as (fargs' & Hargs & Hparams & _ & _ & _ & _ & Hshape & Hfirst & _).
  exists fargs'. split; [exact Hargs |]. split; [exact Hparams |].
  destruct (Hfirst eq_refl) as (_ & Hrng & Horig).
  split; [exact Hrng |]. split; [| exact Hshape].
  destruct (Horig 0 (le_n 1)) as [_ Hmu]. exact Hmu.
Defined.


Lemma function_renamed_and_recorded_witness :
  exists s' c',
    visit (resolver := dotted_name)
          (FunctionDef "m" one_default_arguments plain_then_declared
                       [Name "model" Load] None)
          SamplerCompiler_init = inr (s', c')
    /\ (exists fargs' body', s' = FunctionDef "m_sampler" fargs' body' [] None)
    /\ fn_name c' = "m_sampler"
    /\ compile_to_sampler (resolver := dotted_name)
         [FunctionDef "m" one_default_arguments plain_then_declared
                      [Name "model" Load] None]
       = inr ([s'], "m_sampler").
Proof.
  do 2 eexists. split; [reflexivity |].
  destruct (function_renamed_and_recorded (resolver := dotted_name)
              "m" one_default_arguments plain_then_declared
              [Name "model" Load] None SamplerCompiler_init _ _ eq_refl)
    as (fargs' & body' & c0 & Hs & _ & _ & _ & Hrec).
  split; [exists fargs', body'; exact Hs |].
  assert (Hno : Forall (fun x => is_FunctionDef x = false)
                       (flat_map statements plain_then_declared)).
  { repeat constructor. }
  destruct (Hrec Hno) as [Hname Hdriver].
  split; [exact Hname | exact (Hdriver eq_refl)].
Defined.

Lemma registry_is_declared_names_witness :
  exists body' c',
    visit_list (visit (resolver := dotted_name)) plain_then_declared
               SamplerCompiler_init = inr (body', c')
    /\ model_vars c' = ["x"]
    /\ nth_error body' 1 =
       Some (Assign [Name "x" Store]
               (Call (Attribute (normal (Name "k" Load) (Constant (CInt 1)))
                                "sample" Load)
                     [Name "rng_key" Load; Name "sample_shape" Load] [])
               None).
Proof.
  do 2 eexists. split; [reflexivity |].
  destruct (registry_is_declared_names (resolver := dotted_name)
              plain_then_declared SamplerCompiler_init _ _ eq_refl)
    as (Hreg & _ & Hleaf).
  split; [exact Hreg |].
  apply (Hleaf 1 "x" Load (Name "Normal" Load)
               [Name "k" Load; Constant (CInt 1)] [] eq_refl).
  intros id ctx' [H | [H | []]]; [| discriminate H].
  injection H as <- _. split; [intros [] | discriminate].
Defined.

(** ** Further properties of the classifier *)

Lemma is_leaf_node_true (params : list expr) (vars : list string) :
  is_leaf_node params vars = true <->
  forall id ctx, In (Name id ctx) params -> ~ In id vars.
Proof.
  split.
  - intros H id ctx Hin Hv.
    assert (F : is_leaf_node params vars = false)
      by (apply is_leaf_node_false; eauto).
    congruence.
  - intros H. destruct (is_leaf_node params vars) eqn:E; [reflexivity |].
    apply is_leaf_node_false in E. destruct E as (id & ctx & Hin & Hv).
    now destruct (H id ctx Hin).
Qed.

Lemma is_leaf_node_registry_app (params : list expr) (v1 v2 : list string) :
  is_leaf_node params (v1 ++ v2) =
  is_leaf_node params v1 && is_leaf_node params v2.
Proof.
  induction params as [| p rest IH]; simpl; [reflexivity |].
  destruct p; try exact IH.
  rewrite mem_app.
  destruct (mem id v1), (mem id v2); simpl; rewrite ?andb_false_r; auto.
Qed.

(** X1: the classifier reads the registry as a set of names.  A registry
    made of two parts gives leaf exactly when both parts do, so growing
    the registry can only turn leaf into non-leaf; the order of the
    registry and repeated names in it do not matter; and on the empty
    registry every argument list is leaf. *)
Theorem is_leaf_node_registry_as_set (params : list expr) (v1 v2 : list string) :
  is_leaf_node params (v1 ++ v2) =
    is_leaf_node params v1 && is_leaf_node params v2
  /\ is_leaf_node params (v1 ++ v2) = is_leaf_node params (v2 ++ v1)
  /\ is_leaf_node params (v1 ++ v1) = is_leaf_node params v1
  /\ is_leaf_node params [] = true.
Proof.
  split; [apply is_leaf_node_registry_app |].
  split; [rewrite !is_leaf_node_registry_app; apply andb_comm |].
  split; [rewrite is_leaf_node_registry_app; apply andb_diag |].
  apply is_leaf_node_true. intros id ctx _ [].
Qed.

(** X2: the classification does not depend on the order of the
    arguments of the distribution. *)
Theorem is_leaf_node_argument_order (p1 p2 : list expr) (vars : list string) :
  Permutation p1 p2 -> is_leaf_node p1 vars = is_leaf_node p2 vars.
Proof.
  intros HP.
  destruct (is_leaf_node p2 vars) eqn:E2.
  - apply is_leaf_node_true. intros id ctx Hin.
    apply (proj1 (is_leaf_node_true p2 vars) E2 id ctx).
    eapply Permutation_in; eassumption.
  - apply is_leaf_node_false. apply is_leaf_node_false in E2.
    destruct E2 as (id & ctx & Hin & Hv). exists id, ctx. split; [| exact Hv].
    eapply Permutation_in; [apply Permutation_sym |]; eassumption.
Qed.

Lemma is_leaf_node_argument_order_witness :
  Permutation [Name "a" Load; Constant (CInt 1)] [Constant (CInt 1); Name "a" Load]
  /\ is_leaf_node [Name "a" Load; Constant (CInt 1)] ["a"] =
     is_leaf_node [Constant (CInt 1); Name "a" Load] ["a"].
Proof.
  split; [apply perm_swap |].
  apply (is_leaf_node_argument_order _ _ ["a"] (perm_swap _ _ [])).
Defined.

(** ** Further properties of the transformer *)

Lemma find_first {X : Type} (p : X -> bool) (l : list X) (a : X) :
  find p l = Some a <->
  exists pre post,
    l = pre ++ a :: post
    /\ forallb (fun x => negb (p x)) pre = true /\ p a = true.
Proof.
  induction l as [| x xs IH]; simpl.
  - split; [discriminate | intros ([| ? ?] & ? & H & _); discriminate H].
  - destruct (p x) eqn:Px.
    + split.
      * intros H. injection H as <-. exists [], xs. auto.
      * intros (pre & post & Heq & Hpre & Ha).
        destruct pre as [| y pre]; simpl in *.
        -- now injection Heq as ->.
        -- injection Heq as <- _. rewrite Px in Hpre. discriminate.
    + rewrite IH. split.
      * intros (pre & post & -> & Hpre & Ha).
        exists (x :: pre), post. simpl. rewrite Px. auto.
      * intros (pre & post & Heq & Hpre & Ha).
        destruct pre as [| y pre]; simpl in *.
        -- injection Heq as -> _. congruence.
        -- injection Heq as <- ->. rewrite Px in Hpre. simpl in Hpre.
           exists pre, post. auto.
Qed.

Lemma forallb_pointwise {X : Type} (f g : X -> bool) (l : list X) :
  (forall x, f x = g x) -> forallb f l = forallb g l.
Proof.
  intros H. induction l as [| x xs IH]; simpl; [reflexivity |].
  now rewrite H, IH.
Qed.

Section TransformerFacts.
Context {resolver : NameResolver}.

Lemma visit_list_error_any_state (l : list stmt) :
  Forall (fun s => forall c e, visit s c = inl e ->
                   forall c0, visit s c0 = inl e) l ->
  forall c e, visit_list visit l c = inl e ->
  forall c0, visit_list visit l c0 = inl e.
Proof.
  induction 1 as [| x xs Hx _ IH]; intros c e H c0; [discriminate |].
  rewrite visit_list_cons in *.
  destruct (visit x c) as [e1 | [y c1]] eqn:Ex.
  - injection H as ->. now rewrite (Hx _ _ Ex c0).
  - destruct (visit x c0) as [e0 | [y0 c01]] eqn:Ex0.
    + rewrite (Hx _ _ Ex0 c) in Ex. discriminate.
    + destruct (visit_list visit xs c1) as [e1 | [ys c2]] eqn:E; [| discriminate].
      injection H as ->. now rewrite (IH _ _ E c01).
Qed.

Lemma visit_error_any_state (s : stmt) :
  forall c e, visit s c = inl e -> forall c0, visit s c0 = inl e.
Proof.
  induction s as [s IH] using stmt_children_ind. intros c e Hv c0.
  destruct (Expr_or_not s) as [[value ->] | Hne].
  - simpl in *. apply visit_Expr_error. now apply visit_Expr_error in Hv.
  - destruct (visit_children s c Hne) as (K & c1 & _ & _ & Heq).
    destruct (visit_children s c0 Hne) as (K0 & c2 & _ & _ & Heq0).
    rewrite Heq in Hv. rewrite Heq0.
    destruct (visit_list visit (children s) c1) as [e1 | [l c3]] eqn:E;
      [| discriminate].
    injection Hv as ->.
    now rewrite (visit_list_error_any_state _ IH _ _ E c2).
Qed.

(** X4: whether the visit of a tree raises, and which error it raises,
    does not depend on the state of the compiler: a compiler that has
    already recorded variables and a name raises exactly the error that a
    fresh one raises. *)
Theorem error_independent_of_compiler_state (tree : list stmt)
    (c c0 : SamplerCompiler) (e : ValueError) :
  (visit_list visit tree c = inl e <-> visit_list visit tree c0 = inl e)
  /\ (visit_list visit tree c = inl e <-> compile_to_sampler tree = inl e).
Proof.
  assert (Hany : forall c1 c2, visit_list visit tree c1 = inl e ->
                               visit_list visit tree c2 = inl e).
  { intros c1 c2 H. apply (visit_list_error_any_state tree) with (c := c1);
      [| exact H].
    apply Forall_forall. intros s _. apply visit_error_any_state. }
  split; [split; apply Hany |].
  unfold compile_to_sampler. split.
  - intros H. now rewrite (Hany _ SamplerCompiler_init H).
  - intros H.
    destruct (visit_list visit tree SamplerCompiler_init) as [e0 | [t c1]] eqn:E;
      [| discriminate].
    injection H as ->. now apply (Hany SamplerCompiler_init).
Qed.

(** X5: the order of the checks of [visit_Expr].  The left operand is
    checked first: it is reported exactly when it is not a name, whatever
    the right operand.  The right operand is reported exactly when the
    left one is a name and the right one is not a call.  An argument is
    reported, with the declared name, exactly when both operands pass and
    it is the first argument that is neither a name nor a constant. *)
Theorem checks_in_order (lhs rhs : expr) (c : SamplerCompiler) :
  (visit_Expr (BinOp lhs MatMult rhs) c = inl (ExpectedName lhs)
   <-> is_Name lhs = false)
  /\ (visit_Expr (BinOp lhs MatMult rhs) c = inl (ExpectedDistribution rhs)
      <-> is_Name lhs = true /\ is_Call rhs = false)
  /\ (forall x bad,
        visit_Expr (BinOp lhs MatMult rhs) c = inl (ExpectedNameOrConstant x bad)
        <-> exists ctx f good rest kws,
              lhs = Name x ctx /\ rhs = Call f (good ++ bad :: rest) kws
              /\ forallb simple_argument good = true
              /\ simple_argument bad = false).
Proof.
  rewrite !visit_Expr_error.
  split; [| split].
  - destruct lhs; simpl; try (split; [reflexivity | reflexivity]).
    destruct rhs; simpl; try (split; [congruence | discriminate]).
    destruct (find _ _); simpl; split; discriminate.
  - destruct lhs; simpl;
      try (split; [discriminate | intros [H _]; discriminate H]).
    destruct rhs; simpl; try (split; [auto | reflexivity]).
    destruct (find _ _); simpl;
      (split; [discriminate | intros [_ H]; discriminate H]).
  - intros x bad. rewrite visit_Expr_error.
    destruct lhs as [y ctx | | | | | | | |];
      try (simpl; split;
           [discriminate | intros (? & ? & ? & ? & ? & H & _); discriminate H]).
    destruct rhs as [| | f arguments kws | | | | | |];
      try (simpl; split;
           [discriminate | intros (? & ? & ? & ? & ? & _ & H & _); discriminate H]).
    simpl. split.
    + destruct (find _ arguments) as [a |] eqn:Ef; [| discriminate].
      simpl. intros H. injection H as -> ->.
      apply find_first in Ef. destruct Ef as (good & rest & -> & Hgood & Ha).
      exists ctx, f, good, rest, kws. repeat split; trivial.
      * erewrite forallb_pointwise; [exact Hgood |].
        intros a. cbn beta. now destruct (simple_argument a).
      * now apply negb_true_iff in Ha.
    + intros (ctx0 & f0 & good & rest & kws0 & Hl & Hr & Hgood & Hbad).
      injection Hl as -> _. injection Hr as _ -> _.
      assert (Ef : find (fun a => negb (simple_argument a)) (good ++ bad :: rest)
                   = Some bad).
      { apply find_first. exists good, rest. repeat split.
        - erewrite forallb_pointwise; [exact Hgood |].
          intros a. cbn beta. now destruct (simple_argument a).
        - now rewrite Hbad. }
      now rewrite Ef.
Qed.

Lemma visit_list_result (Q : stmt -> Prop) (l : list stmt) :
  Forall (fun x => forall c y c', visit x c = inr (y, c') -> Q y) l ->
  forall c l' c', visit_list visit l c = inr (l', c') -> Forall Q l'.
Proof.
  induction 1 as [| x xs Hx _ IH]; intros c l' c' H.
  - injection H as <- _. constructor.
  - rewrite visit_list_cons in H.
    destruct (visit x c) as [e | [y c1]] eqn:Ex; [discriminate |].
    destruct (visit_list visit xs c1) as [e | [ys c2]] eqn:E; [discriminate |].
    injection H as <- _. constructor; [eapply Hx, Ex | eapply IH, E].
Qed.

(** A statement that is not a bare expression comes back as a statement
    of the same kind around its visited children. *)
Lemma visit_rebuild (s : stmt) (c : SamplerCompiler) (s' : stmt)
    (c' : SamplerCompiler) :
  (forall value, s <> Expr value) -> visit s c = inr (s', c') ->
  exists c0 l,
    visit_list visit (children s) c0 = inr (l, c')
    /\ children s' = l
    /\ (forall value, s' <> Expr value)
    /\ fn_name c0 = record_function (fn_name c) s.
Proof.
  intros Hne Hv.
  destruct s as [name fargs body decs returns | value | targets value tc
                | target iter body orelse | test body orelse
                | test body orelse | value |].
  - rewrite visit_FunctionDef_run in Hv.
    destruct (visit_list visit body _) as [e | [body' c1]] eqn:E; [discriminate |].
    injection Hv as <- <-. eexists _, body'. split; [exact E |].
    repeat split. discriminate.
  - injection Hv as <- <-. exists c, []. repeat split. discriminate.
  - injection Hv as <- <-. exists c, []. repeat split. discriminate.
  - simpl in Hv. rewrite (visit_two_lists (For target iter)) in Hv.
    destruct (visit_list visit (body ++ orelse) c) as [e | [l c1]] eqn:E;
      [discriminate |].
    injection Hv as <- <-. exists c, l. split; [exact E |].
    split; [apply firstn_skipn |]. split; [discriminate | reflexivity].
  - simpl in Hv. rewrite (visit_two_lists (While test)) in Hv.
    destruct (visit_list visit (body ++ orelse) c) as [e | [l c1]] eqn:E;
      [discriminate |].
    injection Hv as <- <-. exists c, l. split; [exact E |].
    split; [apply firstn_skipn |]. split; [discriminate | reflexivity].
  - simpl in Hv. rewrite (visit_two_lists (If test)) in Hv.
    destruct (visit_list visit (body ++ orelse) c) as [e | [l c1]] eqn:E;
      [discriminate |].
    injection Hv as <- <-. exists c, l. split; [exact E |].
    split; [apply firstn_skipn |]. split; [discriminate | reflexivity].
  - now destruct (Hne value).
  - injection Hv as <- <-. exists c, []. repeat split. discriminate.
Qed.

(** What [visit_Expr] returns: the expression statement itself when it is
    not a declaration, an assignment otherwise. *)
Lemma visit_Expr_result (value : expr) (c : SamplerCompiler) (s' : stmt)
    (c' : SamplerCompiler) :
  visit_Expr value c = inr (s', c') ->
  is_declaration s' = false /\ statements s' = [s'].
Proof.
  intros Hv. destruct (is_declaration (Expr value)) eqn:D.
  - assert (Herr : declaration_error value = None).
    { destruct (declaration_error value) as [e |] eqn:E; [| reflexivity].
      apply (visit_Expr_error value c) in E. congruence. }
    destruct (grammatical_declaration value D Herr)
      as (x & ctx & f & arguments & kws & ->).
    rewrite visit_Expr_declaration in Hv.
    destruct (find _ arguments); [discriminate |].
    injection Hv as <- _. split; reflexivity.
  - rewrite (visit_Expr_other value c D) in Hv. injection Hv as <- _.
    split; [exact D | reflexivity].
Qed.

Lemma not_Expr_not_declaration (s : stmt) :
  (forall value, s <> Expr value) -> is_declaration s = false.
Proof. intros Hne. destruct s; try reflexivity. now destruct (Hne value). Qed.

Lemma visit_no_declaration (s : stmt) :
  forall c s' c', visit s c = inr (s', c') ->
    Forall (fun x => is_declaration x = false) (statements s').
Proof.
  induction s as [s IH] using stmt_children_ind. intros c s' c' Hv.
  destruct (Expr_or_not s) as [[value ->] | Hne].
  - apply visit_Expr_result in Hv. destruct Hv as [Hd ->].
    constructor; [exact Hd | constructor].
  - destruct (visit_rebuild s c s' c' Hne Hv) as (c0 & l & Hl & Hch & Hne' & _).
    rewrite statements_children, Hch.
    constructor; [now apply not_Expr_not_declaration |].
    apply Forall_flat_map. eapply visit_list_result; [exact IH | exact Hl].
Qed.

Lemma no_declaration_no_error (value : expr) :
  is_declaration (Expr value) = false -> declaration_error value = None.
Proof.
  destruct value as [| | | | l op r | | | |]; try reflexivity.
  destruct op; try reflexivity. discriminate.
Qed.

Lemma no_declaration_no_name (l : list stmt) :
  Forall (fun x => is_declaration x = false) l -> flat_map declared_name l = [].
Proof.
  induction 1 as [| s l Hs _ IH]; simpl; [reflexivity |].
  rewrite IH, app_nil_r.
  destruct s; try reflexivity.
  destruct value as [| | | | lhs op rhs | | | |]; try reflexivity.
  destruct op; try reflexivity. discriminate Hs.
Qed.

(** X3: the tree returned by a successful visit holds no declaration, at
    any depth: every [x @ ...] statement has become an assignment.  So a
    second visit of the returned tree, from any state, never raises and
    records no variable. *)
Theorem rewritten_tree_has_no_declaration (tree : list stmt)
    (c : SamplerCompiler) (tree' : list stmt) (c' : SamplerCompiler) :
  visit_list visit tree c = inr (tree', c') ->
  Forall (fun s => is_declaration s = false) (flat_map statements tree')
  /\ forall c0, exists tree'' c'',
       visit_list visit tree' c0 = inr (tree'', c'')
       /\ model_vars c'' = model_vars c0.
Proof.
  intros Hv.
  assert (Hno : Forall (fun s => is_declaration s = false)
                       (flat_map statements tree')).
  { apply Forall_flat_map.
    apply (visit_list_result _ tree) with (c := c) (c' := c'); [| exact Hv].
    apply Forall_forall. intros s _. apply visit_no_declaration. }
  split; [exact Hno |].
  intros c0.
  destruct (tree_total tree' c0) as (tree'' & c'' & Hv').
  { intros value Hin. apply no_declaration_no_error.
    rewrite Forall_forall in Hno. now apply Hno. }
  exists tree'', c''. split; [exact Hv' |].
  rewrite (tree_model_vars _ _ _ _ Hv'). unfold declared_names.
  now rewrite (no_declaration_no_name _ Hno), app_nil_r.
Qed.

(** X6: a declaration with a name argument that is in the registry, or
    is the left-hand name of a declaration before it, or is its own
    target, is replaced by a sampling statement without [sample_shape]:
    the draw receives [rng_key] only. *)
Theorem dependent_declaration_without_sample_shape (body : list stmt)
    (c : SamplerCompiler) (body' : list stmt) (c' : SamplerCompiler)
    (i : nat) (x : string) (ctx : expr_context) (f : expr)
    (arguments : list expr) (kws : list (option string * expr))
    (id : string) (ctx' : expr_context) :
  visit_list visit body c = inr (body', c') ->
  nth_error body i
    = Some (Expr (BinOp (Name x ctx) MatMult (Call f arguments kws))) ->
  In (Name id ctx') arguments ->
  In id (model_vars c ++ declared_names (firstn i body)) \/ id = x ->
  nth_error body' i =
  Some (Assign [Name x Store]
          (Call (Attribute (Call (Name (read_object_name f) Load) arguments [])
                           "sample" Load)
                [Name "rng_key" Load] [])
          None).
Proof.
  intros Hv Hi Hin Hreg.
  rewrite (declaration_at _ _ _ _ _ _ _ _ _ _ Hv Hi).
  assert (Hleaf : is_leaf_node arguments
            (model_vars c ++ declared_names (firstn (S i) body)) = false).
  { apply is_leaf_node_false. exists id, ctx'. split; [exact Hin |].
    rewrite (firstn_S_nth_error _ _ _ Hi), declared_names_app, app_assoc.
    apply in_or_app. destruct Hreg as [Hreg | ->]; [now left | right; now left]. }
  rewrite Hleaf. reflexivity.
Qed.

Lemma visit_list_recorded (l : list stmt) :
  Forall (fun x => forall c y c', visit x c = inr (y, c') ->
            fn_name c' = fold_left record_function (statements x) (fn_name c)) l ->
  forall c l' c', visit_list visit l c = inr (l', c') ->
    fn_name c' = fold_left record_function (flat_map statements l) (fn_name c).
Proof.
  induction 1 as [| x xs Hx _ IH]; intros c l' c' H.
  - injection H as _ <-. reflexivity.
  - rewrite visit_list_cons in H.
    destruct (visit x c) as [e | [y c1]] eqn:Ex; [discriminate |].
    destruct (visit_list visit xs c1) as [e | [ys c2]] eqn:E; [discriminate |].
    injection H as _ <-. simpl.
    now rewrite fold_left_app, <- (Hx _ _ _ Ex), (IH _ _ _ E).
Qed.

Lemma visit_recorded (s : stmt) :
  forall c s' c', visit s c = inr (s', c') ->
    fn_name c' = fold_left record_function (statements s) (fn_name c).
Proof.
  induction s as [s IH] using stmt_children_ind. intros c s' c' Hv.
  destruct (Expr_or_not s) as [[value ->] | Hne].
  - simpl in Hv. apply visit_Expr_state in Hv. now destruct Hv as [_ ->].
  - destruct (visit_rebuild s c s' c' Hne Hv) as (c0 & l & Hl & _ & _ & Hc0).
    rewrite statements_children. simpl. rewrite <- Hc0.
    eapply visit_list_recorded; [exact IH | exact Hl].
Qed.

Lemma fold_record_no_function (l : list stmt) (recorded : string) :
  Forall (fun x => is_FunctionDef x = false) l ->
  fold_left record_function l recorded = recorded.
Proof.
  intros H. revert recorded. induction H as [| s l Hs _ IH]; intros recorded;
    simpl; [reflexivity |].
  rewrite IH. destruct s; try reflexivity. discriminate Hs.
Qed.

(** X7: the name the driver looks up is the name of the function
    definition visited last, followed by [_sampler], wherever that
    definition is nested; a tree without any function definition leaves
    the empty name of a fresh compiler. *)
Theorem recorded_name_is_last_definition (tree tree' : list stmt) (n : string) :
  compile_to_sampler tree = inr (tree', n) ->
  n = recorded_name tree ""
  /\ (Forall (fun x => is_FunctionDef x = false) (flat_map statements tree) ->
      n = "")
  /\ (forall pre name fargs body decs returns post,
        flat_map statements tree
          = pre ++ FunctionDef name fargs body decs returns :: post ->
        Forall (fun x => is_FunctionDef x = false) post ->
        n = (name ++ "_sampler")%string).
Proof.
  unfold compile_to_sampler. intros H.
  destruct (visit_list visit tree SamplerCompiler_init) as [e | [t c]] eqn:E;
    [discriminate |].
  injection H as _ <-.
  assert (Hn : fn_name c = recorded_name tree "").
  { apply (visit_list_recorded tree) with (l' := t) (c := SamplerCompiler_init);
      [| exact E].
    apply Forall_forall. intros s _. apply visit_recorded. }
  split; [exact Hn |]. rewrite Hn. unfold recorded_name. split.
  - apply fold_record_no_function.
  - intros pre name fargs body decs returns post -> Hpost.
    rewrite fold_left_app. simpl. now apply fold_record_no_function.
Qed.

(** X8: with positional-only parameters the defaults move.  [rng_key]
    comes right after the positional-only parameters and takes the
    default that the last of them had; every other positional-only
    parameter takes the default of the one before it and the first one
    ends without default; the ordinary parameters keep their own. *)
Theorem positional_only_defaults_shift (fargs : arguments) :
  List.length (defaults fargs) <= List.length (positional fargs) ->
  posonlyargs fargs <> [] ->
  let p := List.length (posonlyargs fargs) in
  nth_error (positional (sampler_arguments fargs)) p
    = Some (mk_arg "rng_key" None None)
  /\ default_of (sampler_arguments fargs) p = default_of fargs (p - 1)
  /\ default_of (sampler_arguments fargs) 0 = None
  /\ (forall i, S i < p ->
        nth_error (positional (sampler_arguments fargs)) (S i)
          = nth_error (posonlyargs fargs) (S i)
        /\ default_of (sampler_arguments fargs) (S i) = default_of fargs i)
  /\ (forall j, j < List.length (args fargs) ->
        nth_error (positional (sampler_arguments fargs)) (S (p + j))
          = nth_error (args fargs) j
        /\ default_of (sampler_arguments fargs) (S (p + j))
           = default_of fargs (p + j)).
Proof.
  intros Hwf Hpos p.
  assert (Hp : 0 < p).
  { subst p. destruct (posonlyargs fargs); [congruence | simpl; lia]. }
  assert (Hlen : List.length (positional fargs) = p + List.length (args fargs)).
  { unfold positional. now rewrite length_app. }
  split.
  { unfold positional. cbn [sampler_arguments posonlyargs args]. rewrite nth_error_app2 by (subst p; lia).
    now rewrite Nat.sub_diag. }
  split.
  { replace p with (S (p - 1)) at 1 by lia.
    apply default_of_original; [exact Hwf | lia]. }
  split; [now apply default_of_rng_key |].
  split.
  - intros i Hi. split.
    + unfold positional. cbn [sampler_arguments posonlyargs args]. now rewrite nth_error_app1 by (subst p; lia).
    + apply default_of_original; [exact Hwf | lia].
  - intros j Hj. split.
    + unfold positional. cbn [sampler_arguments posonlyargs args]. rewrite nth_error_app2 by (subst p; lia).
      replace (S (p + j) - List.length (posonlyargs fargs)) with (S j)
        by (subst p; lia).
      cbn [nth_error]. now rewrite nth_error_app1.
    + apply default_of_original; [exact Hwf | lia].
Qed.

Lemma visit_list_statement_count (l : list stmt) :
  Forall (fun x => forall c y c', visit x c = inr (y, c') ->
            List.length (statements y) = List.length (statements x)) l ->
  forall c l' c', visit_list visit l c = inr (l', c') ->
    List.length (flat_map statements l') = List.length (flat_map statements l).
Proof.
  induction 1 as [| x xs Hx _ IH]; intros c l' c' H.
  - injection H as <- _. reflexivity.
  - rewrite visit_list_cons in H.
    destruct (visit x c) as [e | [y c1]] eqn:Ex; [discriminate |].
    destruct (visit_list visit xs c1) as [e | [ys c2]] eqn:E; [discriminate |].
    injection H as <- _. simpl. rewrite !length_app.
    now rewrite (Hx _ _ _ Ex), (IH _ _ _ E).
Qed.

Lemma visit_statement_count (s : stmt) :
  forall c s' c', visit s c = inr (s', c') ->
    List.length (statements s') = List.length (statements s).
Proof.
  induction s as [s IH] using stmt_children_ind. intros c s' c' Hv.
  destruct (Expr_or_not s) as [[value ->] | Hne].
  - apply visit_Expr_result in Hv. destruct Hv as [_ ->]. reflexivity.
  - destruct (visit_rebuild s c s' c' Hne Hv) as (c0 & l & Hl & Hch & _ & _).
    rewrite (statements_children s'), (statements_children s), Hch. simpl.
    f_equal. eapply visit_list_statement_count; [exact IH | exact Hl].
Qed.

(** X9: the rewriting is one-for-one at every depth: the returned tree
    has as many statements as the original, counting the statements
    nested in function definitions, loops and conditionals, and as many
    top-level statements. *)
Theorem statements_one_for_one_at_depth (tree : list stmt)
    (c : SamplerCompiler) (tree' : list stmt) (c' : SamplerCompiler) :
  visit_list visit tree c = inr (tree', c') ->
  List.length (flat_map statements tree') = List.length (flat_map statements tree)
  /\ List.length tree' = List.length tree.
Proof.
  intros Hv. split; [| eapply visit_list_length, Hv].
  apply (visit_list_statement_count tree) with (c := c) (c' := c');
    [| exact Hv].
  apply Forall_forall. intros s _. apply visit_statement_count.
Qed.

Lemma visit_head_shape (s : stmt) (c : SamplerCompiler) (s' : stmt)
    (c' : SamplerCompiler) :
  visit s c = inr (s', c') -> sampler_definition s'.
Proof.
  intros Hv.
  destruct s as [name fargs body decs returns | value | targets value tc
                | target iter body orelse | test body orelse
                | test body orelse | value |].
  - rewrite visit_FunctionDef_run in Hv.
    destruct (visit_list visit body _) as [e | [body' c1]]; [discriminate |].
    injection Hv as <- _. simpl. split; [reflexivity |].
    split; [now exists name |]. split; [now exists (args fargs) |].
    now exists (defaults fargs).
  - injection Hv as <- _. exact I.
  - injection Hv as <- _. exact I.
  - simpl in Hv. rewrite (visit_two_lists (For target iter)) in Hv.
    destruct (visit_list visit (body ++ orelse) c) as [e | [l c1]];
      [discriminate |].
    injection Hv as <- _. exact I.
  - simpl in Hv. rewrite (visit_two_lists (While test)) in Hv.
    destruct (visit_list visit (body ++ orelse) c) as [e | [l c1]];
      [discriminate |].
    injection Hv as <- _. exact I.
  - simpl in Hv. rewrite (visit_two_lists (If test)) in Hv.
    destruct (visit_list visit (body ++ orelse) c) as [e | [l c1]];
      [discriminate |].
    injection Hv as <- _. exact I.
  - simpl in Hv.
    assert (Herr : declaration_error value = None).
    { destruct (declaration_error value) as [e |] eqn:E; [| reflexivity].
      apply (visit_Expr_error value c) in E. congruence. }
    destruct (visit_Expr_total value c Herr) as (s0 & H0 & Hs).
    rewrite H0 in Hv. injection Hv as <- _.
    destruct s0; try exact I. discriminate Hs.
  - injection Hv as <- _. exact I.
Qed.

Lemma visit_sampler_definitions (s : stmt) :
  forall c s' c', visit s c = inr (s', c') ->
    Forall sampler_definition (statements s').
Proof.
  induction s as [s IH] using stmt_children_ind. intros c s' c' Hv.
  pose proof (visit_head_shape s c s' c' Hv) as Hhead.
  destruct (Expr_or_not s) as [[value ->] | Hne].
  - apply visit_Expr_result in Hv. destruct Hv as [_ ->].
    constructor; [exact Hhead | constructor].
  - destruct (visit_rebuild s c s' c' Hne Hv) as (c0 & l & Hl & Hch & _ & _).
    rewrite statements_children, Hch. constructor; [exact Hhead |].
    apply Forall_flat_map. eapply visit_list_result; [exact IH | exact Hl].
Qed.

(** X10: in the tree returned by a successful visit every function
    definition, nested ones included, has no decorator, a name that ends
    in [_sampler], [rng_key] as first and [sample_shape] as last ordinary
    parameter, and the empty tuple as last positional default. *)
Theorem every_definition_becomes_a_sampler (tree : list stmt)
    (c : SamplerCompiler) (tree' : list stmt) (c' : SamplerCompiler) :
  visit_list visit tree c = inr (tree', c') ->
  Forall sampler_definition (flat_map statements tree').
Proof.
  intros Hv. apply Forall_flat_map.
  apply (visit_list_result _ tree) with (c := c) (c' := c'); [| exact Hv].
  apply Forall_forall. intros s _. apply visit_sampler_definitions.
Qed.

End TransformerFacts.

(** ** The further properties on concrete models *)

Lemma rewritten_tree_has_no_declaration_witness :
  exists tree' c',
    visit_list (visit (resolver := dotted_name)) two_normals
               SamplerCompiler_init = inr (tree', c')
    /\ Forall (fun s => is_declaration s = false) (flat_map statements tree')
    /\ exists tree'' c'',
         visit_list (visit (resolver := dotted_name)) tree' c'
           = inr (tree'', c'')
         /\ model_vars c'' = ["a"; "b"].
Proof.
  do 2 eexists. split; [reflexivity |].
  destruct (rewritten_tree_has_no_declaration (resolver := dotted_name)
              two_normals SamplerCompiler_init _ _ eq_refl) as [Hno Hagain].
  split; [exact Hno |]. exact (Hagain _).
Defined.

Lemma dependent_declaration_without_sample_shape_witness :
  exists body' c',
    visit_list (visit (resolver := dotted_name)) rebound_body
               SamplerCompiler_init = inr (body', c')
    /\ nth_error body' 2 =
       Some (Assign [Name "y" Store]
               (Call (Attribute (normal (Name "x" Load) (Constant (CInt 1)))
                                "sample" Load)
                     [Name "rng_key" Load] [])
               None).
Proof.
  do 2 eexists. split; [reflexivity |].
  apply (dependent_declaration_without_sample_shape (resolver := dotted_name)
           rebound_body SamplerCompiler_init _ _ 2 "y" Load (Name "Normal" Load)
           [Name "x" Load; Constant (CInt 1)] [] "x" Load
           eq_refl eq_refl (or_introl eq_refl) (or_introl (or_introl eq_refl))).
Defined.

Lemma recorded_name_is_last_definition_witness :
  exists tree' n,
    compile_to_sampler (resolver := dotted_name) nested_definition
      = inr (tree', n)
    /\ n = "helper_sampler".
Proof.
  do 2 eexists. split; [reflexivity |].
  destruct (recorded_name_is_last_definition (resolver := dotted_name)
              nested_definition _ _ eq_refl) as (_ & _ & Hlast).
  apply (Hlast [FunctionDef "m" no_arguments
                  [FunctionDef "helper" no_arguments [Pass] [] None;
                   declare "x" (normal (Constant (CInt 0)) (Constant (CInt 1)))]
                  [] None]
               "helper" no_arguments [Pass] [] None
               [Pass; declare "x" (normal (Constant (CInt 0)) (Constant (CInt 1)))]
               eq_refl).
  repeat constructor.
Defined.

Lemma positional_only_defaults_shift_witness :
  List.length (defaults positional_only_arguments)
    <= List.length (positional positional_only_arguments)
  /\ posonlyargs positional_only_arguments <> []
  /\ nth_error (positional (sampler_arguments positional_only_arguments)) 1
     = Some (mk_arg "rng_key" None None)
  /\ default_of (sampler_arguments positional_only_arguments) 1
     = default_of positional_only_arguments 0
  /\ default_of (sampler_arguments positional_only_arguments) 0 = None.
Proof.
  assert (Hwf : List.length (defaults positional_only_arguments)
                <= List.length (positional positional_only_arguments))
    by (simpl; lia).
  assert (Hpos : posonlyargs positional_only_arguments <> [])
    by discriminate.
  split; [exact Hwf |]. split; [exact Hpos |].
  destruct (positional_only_defaults_shift positional_only_arguments Hwf Hpos)
    as (Hrng & Hdef & Hfirst & _).
  split; [exact Hrng |]. split; [exact Hdef | exact Hfirst].
Defined.

Lemma statements_one_for_one_at_depth_witness :
  exists tree' c',
    visit_list (visit (resolver := dotted_name)) nested_definition
               SamplerCompiler_init = inr (tree', c')
    /\ List.length (flat_map statements tree') = 4
    /\ List.length tree' = 1.
Proof.
  do 2 eexists. split; [reflexivity |].
  exact (statements_one_for_one_at_depth (resolver := dotted_name)
           nested_definition SamplerCompiler_init _ _ eq_refl).
Defined.

Lemma every_definition_becomes_a_sampler_witness :
  exists tree' c',
    visit_list (visit (resolver := dotted_name)) nested_definition
               SamplerCompiler_init = inr (tree', c')
    /\ Forall sampler_definition (flat_map statements tree').
Proof.
  do 2 eexists. split; [reflexivity |].
  exact (every_definition_becomes_a_sampler (resolver := dotted_name)
           nested_definition SamplerCompiler_init _ _ eq_refl).
Defined.
